(** * mguid::Trie: a shallow embedding of [include/Trie/Trie.hpp]

  The header defines a prefix tree [Trie<PrefixEltType, ValueType>] made of
  [TrieNode]s.  Each node holds one key element, an optional vector of
  children and an optional value; the container owns the root node and a
  [std::size_t] element count.

  Pointers into the tree ([TrieNode*] walking down from [&m_root]) are
  rendered as structural recursion that rebuilds the spine it walked; an
  iterator returned by [std::find_if] is rendered as the position it points
  to together with the element found there. *)

From Stdlib Require Import List ZArith Lia Bool Ascii String.
Import ListNotations.

Local Open Scope Z_scope.

Set Warnings "-register-all".

(** ** Requirements on the template parameters *)

(** [child.character == ch]: the element type is equality comparable. *)
Class EqualityComparable (A : Type) : Type := {
  elt_eqb : A -> A -> bool;
  elt_eqb_eq : forall a b : A, elt_eqb a b = true <-> a = b
}.

(** [ValueType{}]: the value type is default constructible. *)
Class DefaultConstructible (V : Type) : Type := {
  default_value : V
}.

(** [std::size_t] on the 64-bit targets the header is built for. *)
Definition SIZE_WIDTH : Z := 64.
Definition SIZE_MODULUS : Z := 2 ^ SIZE_WIDTH.
Definition SIZE_MAX : Z := SIZE_MODULUS - 1.

(** Unsigned wrap-around of [++m_size] and [--m_size]. *)
Definition wrap (z : Z) : Z := z mod SIZE_MODULUS.

(** ** Vector helpers *)

Section Vector.
Context {A : Type}.

(** [std::find_if(v.begin(), v.end(), p)]: the first position whose element
    satisfies [p], with that element; [None] stands for [v.end()]. *)
Fixpoint find_if_from (p : A -> bool) (pos : nat) (v : list A) : option (nat * A) :=
  match v with
  | [] => None
  | x :: v' => if p x then Some (pos, x) else find_if_from p (S pos) v'
  end.

Definition find_if (p : A -> bool) (v : list A) : option (nat * A) :=
  find_if_from p 0%nat v.

(** What [std::find_if] promises: the element found satisfies the predicate
    and nothing before it does. *)
Inductive first_match (p : A -> bool) : list A -> nat -> A -> Prop :=
| first_match_here : forall x v, p x = true -> first_match p (x :: v) 0%nat x
| first_match_later : forall y v k x,
    p y = false -> first_match p v k x -> first_match p (y :: v) (S k) x.

(** [*it = x] for an iterator [it] at position [pos]. *)
Fixpoint assign_at (pos : nat) (x : A) (v : list A) : list A :=
  match v, pos with
  | [], _ => []
  | _ :: v', O => x :: v'
  | y :: v', S pos' => y :: assign_at pos' x v'
  end.

(** [v.erase(it)] for an iterator [it] at position [pos]. *)
Fixpoint erase_at (pos : nat) (v : list A) : list A :=
  match v, pos with
  | [], _ => []
  | _ :: v', O => v'
  | y :: v', S pos' => y :: erase_at pos' v'
  end.

(** [v.emplace_back(x)]. *)
Definition emplace_back (v : list A) (x : A) : list A := v ++ [x].
End Vector.

(** ** The data model *)

Section TrieModel.
Context {PrefixEltType : Type} `{EqualityComparable PrefixEltType}.
Context {ValueType : Type} `{DefaultConstructible ValueType}.

(** [struct TrieNode]. *)
Inductive TrieNode : Type :=
  mkTrieNode {
    character : PrefixEltType;
    opt_children : option (list TrieNode);
    opt_value : option ValueType
  }.

(** The constructor [TrieNode(PrefixEltType ch)]: both optionals start out
    as [std::nullopt]. *)
Definition TrieNode_new (ch : PrefixEltType) : TrieNode :=
  mkTrieNode ch None None.

Definition set_children (node : TrieNode) (c : option (list TrieNode)) : TrieNode :=
  mkTrieNode (character node) c (opt_value node).

Definition set_value (node : TrieNode) (v : option ValueType) : TrieNode :=
  mkTrieNode (character node) (opt_children node) v.

(** The predicate handed to [std::find_if] in every walk. *)
Definition labelled (ch : PrefixEltType) (child : TrieNode) : bool :=
  elt_eqb (character child) ch.

Definition KeyType : Type := list PrefixEltType.

(** [class Trie]: the private members. *)
Record Trie : Type := mkTrie {
  m_root : TrieNode;
  m_size : Z
}.

(** ** Walks *)

(** [find_node]: follow [key] from [current_node]; [None] is [nullptr]. *)
Fixpoint find_node_from (current_node : TrieNode) (key : KeyType) : option TrieNode :=
  match key with
  | [] => Some current_node
  | ch :: key' =>
      match opt_children current_node with
      | None => None
      | Some children =>
          match find_if (labelled ch) children with
          | None => None
          | Some (_, child) => find_node_from child key'
          end
      end
  end.

Definition find_node (t : Trie) (key : KeyType) : option TrieNode :=
  find_node_from (m_root t) key.

(** The value stored at [key] below [node], if the path and the value exist:
    what [find] computes from the root. *)
Definition value_at (node : TrieNode) (key : KeyType) : option ValueType :=
  match find_node_from node key with
  | Some m => opt_value m
  | None => None
  end.

(** The tail shared by [insert] and [find_or_insert]: store [v] at the node
    reached unless it already carries a value.  The result is the node, the
    value its [opt_value] holds afterwards, and whether it was stored now. *)
Definition store_if_absent (v : ValueType) (node : TrieNode)
  : TrieNode * ValueType * bool :=
  match opt_value node with
  | None => (set_value node (Some v), v, true)
  | Some old => (node, old, false)
  end.

(** The loop shared, statement for statement, by [insert] (lines 89-100) and
    [find_or_insert] (lines 236-248), followed by the store at the node the
    loop ends on.  At each element: an absent children vector is replaced by
    an empty one; the first child labelled with the element is entered, and
    when there is none a fresh child is appended and entered. *)
Fixpoint walk_or_create (key : KeyType) (v : ValueType) (node : TrieNode)
  : TrieNode * ValueType * bool :=
  match key with
  | [] => store_if_absent v node
  | ch :: key' =>
      let children :=
        match opt_children node with
        | None => []
        | Some children => children
        end in
      match find_if (labelled ch) children with
      | None =>
          let '(child', r, inserted) := walk_or_create key' v (TrieNode_new ch) in
          (set_children node (Some (emplace_back children child')), r, inserted)
      | Some (it, child) =>
          let '(child', r, inserted) := walk_or_create key' v child in
          (set_children node (Some (assign_at it child' children)), r, inserted)
      end
  end.

(** [erase_recursive(node, key, depth)], with [key] standing for the suffix
    [key[depth..]] (so [depth == key.size()] reads [key = []]) and [sz] for
    [m_size], which the base case decrements.  The child entered is written
    back whatever the recursive call returns, as the call works in place. *)
Fixpoint erase_recursive (node : TrieNode) (key : KeyType) (sz : Z)
  : bool * TrieNode * Z :=
  match key with
  | [] =>
      match opt_value node with
      | Some _ => (true, set_value node None, wrap (sz - 1))
      | None => (false, node, sz)
      end
  | ch :: key' =>
      match opt_children node with
      | None => (false, node, sz)
      | Some children =>
          match find_if (labelled ch) children with
          | None => (false, node, sz)
          | Some (it, child) =>
              let '(erased, child', sz') := erase_recursive child key' sz in
              let children' := assign_at it child' children in
              if erased then
                match opt_children child', opt_value child' with
                | Some [], None =>
                    (true, set_children node (Some (erase_at it children')), sz')
                | _, _ => (true, set_children node (Some children'), sz')
                end
              else (false, set_children node (Some children'), sz')
          end
      end
  end.

(** ** The public interface *)

(** [Trie()]: the root is labelled with a sentinel element ('\0'). *)
Definition Trie_new (sentinel : PrefixEltType) : Trie :=
  mkTrie (TrieNode_new sentinel) 0.

(** [find_or_insert(key)]: the new trie and the value the returned
    reference designates. *)
Definition find_or_insert (t : Trie) (key : KeyType) : Trie * ValueType :=
  let '(root', r, inserted) := walk_or_create key default_value (m_root t) in
  (mkTrie root' (if inserted then wrap (m_size t + 1) else m_size t), r).

(** [operator[](key)], both overloads: [key] is the range of elements the
    walk iterates over.  (A string literal bound to the template overload is
    an array, and its range ends with the terminating NUL.) *)
Definition subscript (t : Trie) (key : KeyType) : Trie * ValueType :=
  find_or_insert t key.

(** [insert(kv)]: the new trie, the value behind the returned pointer and
    the [inserted] flag. *)
Definition insert (t : Trie) (kv : KeyType * ValueType)
  : Trie * (ValueType * bool) :=
  let '(root', r, inserted) := walk_or_create (fst kv) (snd kv) (m_root t) in
  (mkTrie root' (if inserted then wrap (m_size t + 1) else m_size t),
   (r, inserted)).

(** [contains(key)]: [find_node(key) != nullptr]. *)
Definition contains (t : Trie) (key : KeyType) : bool :=
  match find_node t key with
  | Some _ => true
  | None => false
  end.

(** [find(key)]: [None] is the null pointer. *)
Definition find (t : Trie) (key : KeyType) : option ValueType :=
  match find_node t key with
  | Some node => opt_value node
  | None => None
  end.

(** The exception [at] throws. *)
Inductive Exception : Type :=
| out_of_range (what : string).

(** [at(key)]: the trie after the call and either the referenced value or
    the exception thrown. *)
Definition at_ (t : Trie) (key : KeyType) : Trie * (Exception + ValueType) :=
  match find_node t key with
  | Some node =>
      match opt_value node with
      | Some v => (t, inr v)
      | None => (t, inl (out_of_range "Key not found in Trie"))
      end
  | None => (t, inl (out_of_range "Key not found in Trie"))
  end.

(** [erase(key)]. *)
Definition erase (t : Trie) (key : KeyType) : Trie * bool :=
  let '(erased, root', sz') := erase_recursive (m_root t) key (m_size t) in
  (mkTrie root' sz', erased).

Definition size (t : Trie) : Z := m_size t.

Definition empty (t : Trie) : bool := m_size t =? 0.

(** [clear()]: resets the root's children and the count. *)
Definition clear (t : Trie) : Trie :=
  mkTrie (set_children (m_root t) None) 0.

(** ** Writing through a returned reference

    [operator[]], [at], [find] and [insert] hand out a mutable reference (or
    pointer) to the value stored at [key]; [write_from] is the assignment
    through it, as in [trie[key] = v].  It changes the payload of a value that
    is there and nothing else. *)
Fixpoint write_from (key : KeyType) (v : ValueType) (node : TrieNode) : TrieNode :=
  match key with
  | [] =>
      match opt_value node with
      | Some _ => set_value node (Some v)
      | None => node
      end
  | ch :: key' =>
      match opt_children node with
      | None => node
      | Some children =>
          match find_if (labelled ch) children with
          | None => node
          | Some (it, child) =>
              set_children node (Some (assign_at it (write_from key' v child) children))
          end
      end
  end.

Definition write (t : Trie) (key : KeyType) (v : ValueType) : Trie :=
  mkTrie (write_from key v (m_root t)) (m_size t).

(** ** Reachable states *)

(** The states a client can bring a trie into: construction, the mutating
    members, and assignments through the references they return.  ([at],
    [find], [contains], [size] and [empty] leave the state as it is.) *)
Inductive reachable : Trie -> Prop :=
| reach_new : forall sentinel, reachable (Trie_new sentinel)
| reach_subscript : forall t key, reachable t -> reachable (fst (subscript t key))
| reach_insert : forall t kv, reachable t -> reachable (fst (insert t kv))
| reach_at : forall t key, reachable t -> reachable (fst (at_ t key))
| reach_erase : forall t key, reachable t -> reachable (fst (erase t key))
| reach_clear : forall t, reachable t -> reachable (clear t)
| reach_write : forall t key v, reachable t -> reachable (write t key v).

(** ** Measures and shapes of a tree *)

(** The number of nodes at or below [node] whose value is present. *)
Fixpoint count_values (node : TrieNode) : nat :=
  match node with
  | mkTrieNode _ children value =>
      ((match value with Some _ => 1 | None => 0 end) +
       match children with
       | None => 0
       | Some children => list_sum (map count_values children)
       end)%nat
  end.

(** The number of nodes at or below [node]. *)
Fixpoint count_nodes (node : TrieNode) : nat :=
  match node with
  | mkTrieNode _ children _ =>
      S (match children with
         | None => 0
         | Some children => list_sum (map count_nodes children)
         end)
  end.

(** Dead weight: no value, and a children vector that is absent or empty. *)
Definition dead (node : TrieNode) : bool :=
  match opt_value node, opt_children node with
  | None, None => true
  | None, Some [] => true
  | _, _ => false
  end.

(** Some node strictly below [node] is dead weight. *)
Fixpoint dead_below (node : TrieNode) : bool :=
  match node with
  | mkTrieNode _ children _ =>
      match children with
      | None => false
      | Some children => existsb (fun c => dead c || dead_below c) children
      end
  end.

(** [node_at n key m]: following, from [n], one child per element of [key],
    each labelled with that element, ends at [m].  This is what "a node exists
    at the full element path of [key]" means. *)
Inductive node_at : TrieNode -> KeyType -> TrieNode -> Prop :=
| node_at_nil : forall n, node_at n [] n
| node_at_cons : forall n children child ch key m,
    opt_children n = Some children ->
    In child children ->
    character child = ch ->
    node_at child key m ->
    node_at n (ch :: key) m.

(** No two children of one node share a label, anywhere at or below [node]. *)
Fixpoint unique_labels (node : TrieNode) : Prop :=
  match node with
  | mkTrieNode _ children _ =>
      match children with
      | None => True
      | Some children =>
          NoDup (map character children) /\
          fold_right (fun c acc => unique_labels c /\ acc) True children
      end
  end.

(** No children vector at or below [node] is present and empty: the only
    shape the pruning test of [erase_recursive] matches. *)
Fixpoint never_empty (node : TrieNode) : Prop :=
  match node with
  | mkTrieNode _ children _ =>
      match children with
      | None => True
      | Some children =>
          children <> [] /\
          fold_right (fun c acc => never_empty c /\ acc) True children
      end
  end.

(** The count agrees with the tree and fits a [std::size_t]. *)
Definition size_consistent (t : Trie) : Prop :=
  m_size t = Z.of_nat (count_values (m_root t)) /\ m_size t <= SIZE_MAX.

(** ** The traversal cursor *)

(** [struct iterator]: the stack (top first) of nodes still to visit, each
    with the key prefix that leads to it, and the pair last produced. *)
Record iterator : Type := mkIterator {
  stack : list (TrieNode * KeyType);
  current_pair : KeyType * ValueType
}.

(** [iterator() = default]: an empty stack and a value-initialised pair. *)
Definition iterator_default : iterator :=
  mkIterator [] ([], default_value).

(** The loop over [rbegin() .. rend()] that pushes every child, last child
    first, so that the first child ends up on top. *)
Definition push_children (children : list TrieNode) (prefix : KeyType)
  (st : list (TrieNode * KeyType)) : list (TrieNode * KeyType) :=
  fold_left (fun st child => (child, prefix ++ [character child]) :: st)
            (rev children) st.

(** The [while (!stack.empty())] loop of [advance], one iteration per unit of
    [fuel]; [None] when the fuel runs out before the loop is left. *)
Fixpoint advance_loop (fuel : nat) (st : list (TrieNode * KeyType))
  (cur : KeyType * ValueType) : option iterator :=
  match fuel with
  | O => None
  | S fuel' =>
      match st with
      | [] => Some (mkIterator [] cur)
      | (node, prefix) :: st' =>
          match opt_value node with
          | Some v =>
              match opt_children node with
              | Some children =>
                  Some (mkIterator (push_children children prefix st') (prefix, v))
              | None => Some (mkIterator st' (prefix, v))
              end
          | None =>
              match opt_children node with
              | Some children =>
                  advance_loop fuel' (push_children children prefix st') cur
              | None => advance_loop fuel' st' cur
              end
          end
      end
  end.

(** The nodes still ahead of a cursor: an upper bound on the iterations of
    the loop. *)
Definition stack_nodes (st : list (TrieNode * KeyType)) : nat :=
  list_sum (map (fun e => count_nodes (fst e)) st).

(** [advance()]. *)
Definition advance (it : iterator) : option iterator :=
  advance_loop (S (stack_nodes (stack it))) (stack it) (current_pair it).

(** [iterator(TrieNode* root)]. *)
Definition iterator_from (root : option TrieNode) : option iterator :=
  match root with
  | Some root => advance (mkIterator [(root, [])] ([], default_value))
  | None => Some iterator_default
  end.

(** [begin()] and [end()]: both return [iterator()]. *)
Definition Trie_begin (t : Trie) : iterator := iterator_default.
Definition Trie_end (t : Trie) : iterator := iterator_default.

(** [it == end()]: two stacks are equal when they have the same length and
    equal entries, and the stack of [end()] is empty. *)
Definition is_end (it : iterator) : bool :=
  match stack it with
  | [] => true
  | _ :: _ => false
  end.

(** The client loop [for (it = first; it != end(); ++it)] that records the
    pair under the cursor at every round. *)
Fixpoint collect (fuel : nat) (it : iterator) : option (list (KeyType * ValueType)) :=
  match fuel with
  | O => None
  | S fuel' =>
      if is_end it then Some []
      else
        match advance it with
        | Some it' => option_map (cons (current_pair it)) (collect fuel' it')
        | None => None
        end
  end.

(** Iterating the trie from [begin()] to [end()]. *)
Definition iterate (fuel : nat) (t : Trie) : option (list (KeyType * ValueType)) :=
  collect fuel (Trie_begin t).

(** ** Reference listings *)

(** The stored pairs at and below [node] in depth-first pre-order: the pair of
    [node] itself first, then the listings of its children in vector order,
    each key being [prefix] followed by the labels walked. *)
Fixpoint preorder (prefix : KeyType) (node : TrieNode) : list (KeyType * ValueType) :=
  match node with
  | mkTrieNode _ children value =>
      (match value with Some v => [(prefix, v)] | None => [] end) ++
      match children with
      | None => []
      | Some children =>
          flat_map (fun c => preorder (prefix ++ [character c]) c) children
      end
  end.

(** The pairs a cursor has still to produce: the listings of the nodes on its
    stack, top first. *)
Definition pending (st : list (TrieNode * KeyType)) : list (KeyType * ValueType) :=
  flat_map (fun e => preorder (snd e) (fst e)) st.

(** The nodes at and below [node] in the order a depth-first pre-order walk
    visits them, each with the key that leads to it and the value it holds. *)
Fixpoint walk_order (prefix : KeyType) (node : TrieNode)
  : list (KeyType * option ValueType) :=
  match node with
  | mkTrieNode _ children value =>
      (prefix, value) ::
      match children with
      | None => []
      | Some children =>
          flat_map (fun c => walk_order (prefix ++ [character c]) c) children
      end
  end.

(** The visits a cursor has still to make. *)
Definition visits (st : list (TrieNode * KeyType)) : list (KeyType * option ValueType) :=
  flat_map (fun e => walk_order (snd e) (fst e)) st.

(** The pairs among a list of visits: those of the nodes that hold a value. *)
Fixpoint pairs_of (vs : list (KeyType * option ValueType)) : list (KeyType * ValueType) :=
  match vs with
  | [] => []
  | (k, Some v) :: vs' => (k, v) :: pairs_of vs'
  | (_, None) :: vs' => pairs_of vs'
  end.

(** The first visit that holds a value, as a pair, and the visits after it. *)
Fixpoint next_valued (vs : list (KeyType * option ValueType))
  : option ((KeyType * ValueType) * list (KeyType * option ValueType)) :=
  match vs with
  | [] => None
  | (k, Some v) :: vs' => Some ((k, v), vs')
  | (_, None) :: vs' => next_valued vs'
  end.

(** How many leading elements of [key] already have their node below [node]:
    the length of the part of the walk that creates nothing. *)
Fixpoint matched_depth (node : TrieNode) (key : KeyType) : nat :=
  match key with
  | [] => 0
  | ch :: key' =>
      match opt_children node with
      | None => 0
      | Some children =>
          match find_if (labelled ch) children with
          | None => 0
          | Some (_, child) => S (matched_depth child key')
          end
      end
  end.

(** [it++]: the copy returned and the cursor advanced. *)
Definition post_increment (it : iterator) : option (iterator * iterator) :=
  option_map (fun it' => (it, it')) (advance it).

(** [*it]. *)
Definition deref (it : iterator) : KeyType * ValueType := current_pair it.

(** The sample program: [trie[key] = v;] followed by printing [trie[key]].
    The result is the final trie and the value printed. *)
Definition sample_main (t : Trie) (key : KeyType) (v : ValueType) : Trie * ValueType :=
  let t1 := fst (subscript t key) in
  let t2 := write t1 key v in
  subscript t2 key.

End TrieModel.

(** ** [mguid::Trie<char, int>], the instance the sample program uses *)

Module CharInt.

#[export] Instance char_eq : EqualityComparable ascii :=
  {| elt_eqb := Ascii.eqb; elt_eqb_eq := Ascii.eqb_eq |}.

#[export] Instance int_default : DefaultConstructible Z :=
  {| default_value := 0 |}.

(** A [std::string_view] over a literal. *)
Definition sv (s : string) : list ascii := list_ascii_of_string s.

(** The empty key, as in [std::string_view{}]. *)
Definition empty_key : list ascii := sv EmptyString.

(** A string literal bound to the template overload of [operator[]]: the
    array of its characters and the terminating NUL. *)
Definition literal (s : string) : list ascii := sv s ++ [zero].

(** [Trie<char, int>{}]. *)
Definition empty_trie : Trie (PrefixEltType := ascii) (ValueType := Z) :=
  Trie_new zero.

(** Inserting "a"->1, "ab"->2, "b"->3 in that order. *)
Definition abc_trie : Trie :=
  let t1 := fst (insert empty_trie (sv "a", 1)) in
  let t2 := fst (insert t1 (sv "ab", 2)) in
  fst (insert t2 (sv "b", 3)).

End CharInt.


(** * Facts *)

(** ** Vectors *)

Section VectorFacts.
Context {A : Type}.
Implicit Types (p : A -> bool) (v : list A) (x y : A) (k pos : nat).

Lemma find_if_from_shift p v : forall pos,
  find_if_from p pos v =
  option_map (fun e => ((pos + fst e)%nat, snd e)) (find_if_from p 0%nat v).
Proof.
  induction v as [|y v IH]; intros pos; simpl; [reflexivity|].
  destruct (p y); simpl.
  - now rewrite Nat.add_0_r.
  - rewrite (IH (S pos)), (IH 1%nat).
    destruct (find_if_from p 0%nat v) as [[i x]|]; simpl; [|reflexivity].
    f_equal. f_equal. lia.
Qed.

Lemma find_if_cons p y v :
  find_if p (y :: v) =
  if p y then Some (0%nat, y)
  else option_map (fun e => (S (fst e), snd e)) (find_if p v).
Proof.
  unfold find_if; simpl. destruct (p y); [reflexivity|].
  now rewrite find_if_from_shift.
Qed.

Lemma find_if_first_match p v k x :
  find_if p v = Some (k, x) <-> first_match p v k x.
Proof.
  revert k. induction v as [|y v IH]; intros k.
  - split; [discriminate | inversion 1].
  - rewrite find_if_cons. destruct (p y) eqn:Hy.
    + split.
      * intros [= <- <-]. now constructor.
      * inversion 1; subst; [reflexivity | congruence].
    + split.
      * destruct (find_if p v) as [[i z]|] eqn:Hf; simpl; [|discriminate].
        intros [= <- <-]. constructor; [assumption|]. now apply IH.
      * inversion 1; subst; [congruence|].
        match goal with Hm : first_match _ _ _ _ |- _ => apply IH in Hm; rewrite Hm end.
        reflexivity.
Qed.

Lemma find_if_none p v :
  find_if p v = None <-> (forall x, In x v -> p x = false).
Proof.
  induction v as [|y v IH].
  - split; [intros _ x [] | reflexivity].
  - rewrite find_if_cons. destruct (p y) eqn:Hy.
    + split; [discriminate|]. intros Hall.
      rewrite (Hall y (or_introl eq_refl)) in Hy. discriminate.
    + destruct (find_if p v) as [[i z]|] eqn:Hf; simpl.
      * split; [discriminate|]. intros Hall.
        assert (Hn : Some (i, z) = None); [|discriminate].
        apply IH. intros x Hx. apply Hall. now right.
      * split; [|reflexivity]. intros _ x [<-|Hx]; [assumption|].
        now apply (proj1 IH).
Qed.

Lemma first_match_nth p v k x :
  first_match p v k x -> nth_error v k = Some x /\ p x = true.
Proof. induction 1; simpl; auto. Qed.

Lemma first_match_In p v k x : first_match p v k x -> In x v.
Proof. induction 1; simpl; auto. Qed.

Lemma first_match_assign p v k x x' :
  first_match p v k x -> p x' = true -> first_match p (assign_at k x' v) k x'.
Proof.
  induction 1; intros Hx'; simpl; constructor; auto.
Qed.

Lemma first_match_emplace_back p v x :
  (forall y, In y v -> p y = false) -> p x = true ->
  first_match p (emplace_back v x) (List.length v) x.
Proof.
  unfold emplace_back. induction v as [|y v IH]; intros Hall Hx; simpl.
  - now constructor.
  - constructor; [apply Hall; now left|].
    apply IH; [|assumption]. intros z Hz. apply Hall. now right.
Qed.

Lemma assign_at_same v k x : nth_error v k = Some x -> assign_at k x v = v.
Proof.
  revert k. induction v as [|y v IH]; intros [|k]; simpl; try discriminate.
  - now intros [= ->].
  - intros Hk. now rewrite IH.
Qed.

Lemma assign_at_map {B} (f : A -> B) v k x x' :
  nth_error v k = Some x -> f x' = f x -> map f (assign_at k x' v) = map f v.
Proof.
  revert k. induction v as [|y v IH]; intros [|k]; simpl; try discriminate.
  - intros [= ->] ->. reflexivity.
  - intros Hk Hf. now rewrite (IH k).
Qed.

Lemma erase_at_assign_at v k x : erase_at k (assign_at k x v) = erase_at k v.
Proof.
  revert k. induction v as [|y v IH]; intros [|k]; simpl; try reflexivity.
  now rewrite IH.
Qed.

Lemma erase_at_map {B} (f : A -> B) v k :
  map f (erase_at k v) = erase_at k (map f v).
Proof.
  revert k. induction v as [|y v IH]; intros [|k]; simpl; try reflexivity.
  now rewrite IH.
Qed.

Lemma In_erase_at v k x : In x (erase_at k v) -> In x v.
Proof.
  revert k. induction v as [|y v IH]; intros [|k]; simpl; auto.
  intros [->|Hx]; eauto.
Qed.

Lemma In_assign_at v k x' z : In z (assign_at k x' v) -> z = x' \/ In z v.
Proof.
  revert k. induction v as [|y v IH]; intros [|k]; simpl; auto.
  - intros [->|Hz]; auto.
  - intros [->|Hz]; auto. destruct (IH _ Hz); auto.
Qed.

Lemma NoDup_erase_at v k : NoDup v -> NoDup (erase_at k v).
Proof.
  intros Hnd. revert k. induction Hnd as [|y v Hy Hnd IH]; intros [|k]; simpl;
    try constructor; auto.
  intros Hin. apply Hy. eapply In_erase_at; eauto.
Qed.

Lemma NoDup_erase_at_fresh v k x :
  NoDup v -> nth_error v k = Some x -> ~ In x (erase_at k v).
Proof.
  intros Hnd. revert k. induction Hnd as [|y v Hy Hnd IH]; intros [|k]; simpl;
    try discriminate.
  - now intros [= ->].
  - intros Hk [->|Hin].
    + apply Hy. eapply nth_error_In; eauto.
    + eapply IH; eauto.
Qed.

Lemma NoDup_map_inj {B} (f : A -> B) v x y :
  NoDup (map f v) -> In x v -> In y v -> f x = f y -> x = y.
Proof.
  induction v as [|z v IH]; simpl; [intros _ []|].
  intros Hnd Hx Hy Hf. inversion Hnd as [|? ? Hz Hnd']; subst.
  destruct Hx as [->|Hx], Hy as [->|Hy]; auto.
  - exfalso. apply Hz. rewrite Hf. now apply in_map.
  - exfalso. apply Hz. rewrite <- Hf. now apply in_map.
Qed.

Lemma list_sum_assign_at (f : A -> nat) v k x x' :
  nth_error v k = Some x ->
  (list_sum (map f (assign_at k x' v)) + f x = list_sum (map f v) + f x')%nat.
Proof.
  revert k. induction v as [|y v IH]; intros [|k]; simpl; try discriminate.
  - intros [= ->]. lia.
  - intros Hk. specialize (IH _ Hk). lia.
Qed.

Lemma list_sum_erase_at (f : A -> nat) v k x :
  nth_error v k = Some x ->
  (list_sum (map f (erase_at k v)) + f x = list_sum (map f v))%nat.
Proof.
  revert k. induction v as [|y v IH]; intros [|k]; simpl; try discriminate.
  - intros [= ->]. lia.
  - intros Hk. specialize (IH _ Hk). lia.
Qed.

Lemma list_sum_In (f : A -> nat) v x :
  In x v -> (f x <= list_sum (map f v))%nat.
Proof.
  induction v as [|y v IH]; simpl; [intros []|].
  intros [->|Hx]; [lia|]. specialize (IH Hx). lia.
Qed.

End VectorFacts.

(** ** Trees *)

Section TrieFacts.
Context {PrefixEltType : Type} `{EqualityComparable PrefixEltType}.
Context {ValueType : Type} `{DefaultConstructible ValueType}.

Local Abbreviation Node := (@TrieNode PrefixEltType ValueType).
Local Abbreviation trie := (@Trie PrefixEltType ValueType).
Local Abbreviation key_t := (@KeyType PrefixEltType).

Implicit Types (node child m : Node) (children : list Node) (key : key_t)
  (ch : PrefixEltType) (v r : ValueType) (t : trie).

Lemma labelled_iff ch child : labelled ch child = true <-> character child = ch.
Proof. unfold labelled. apply elt_eqb_eq. Qed.

Lemma set_children_same node children :
  opt_children node = Some children -> set_children node (Some children) = node.
Proof. destruct node; simpl; now intros ->. Qed.

Lemma count_values_eq node :
  count_values node =
  ((match opt_value node with Some _ => 1 | None => 0 end) +
   match opt_children node with
   | None => 0
   | Some children => list_sum (map count_values children)
   end)%nat.
Proof. now destruct node. Qed.

Lemma unique_labels_eq node :
  unique_labels node <->
  match opt_children node with
  | None => True
  | Some children =>
      NoDup (map character children) /\ (forall c, In c children -> unique_labels c)
  end.
Proof.
  destruct node as [c [children|] val]; simpl; [|tauto].
  assert (Hfold : fold_right (fun c acc => unique_labels c /\ acc) True children <->
                  (forall c, In c children -> unique_labels c)).
  { induction children as [|x xs IH]; simpl.
    - split; [intros _ ? [] | trivial].
    - rewrite IH. split.
      + intros [Hx Hxs] y [<-|Hy]; auto.
      + intros Hall. split; auto. }
  tauto.
Qed.

Lemma find_node_from_cons node ch key children it child :
  opt_children node = Some children ->
  find_if (labelled ch) children = Some (it, child) ->
  find_node_from node (ch :: key) = find_node_from child key.
Proof. intros Hc Hf. simpl. now rewrite Hc, Hf. Qed.

Lemma value_at_cons node ch key children it child :
  opt_children node = Some children ->
  find_if (labelled ch) children = Some (it, child) ->
  value_at node (ch :: key) = value_at child key.
Proof.
  intros Hc Hf. unfold value_at. now rewrite (find_node_from_cons _ _ _ _ _ _ Hc Hf).
Qed.

Lemma value_at_no_children node ch key :
  opt_children node = None -> value_at node (ch :: key) = None.
Proof. intros Hc. unfold value_at. simpl. now rewrite Hc. Qed.

Lemma value_at_no_child node ch key children :
  opt_children node = Some children ->
  find_if (labelled ch) children = None ->
  value_at node (ch :: key) = None.
Proof. intros Hc Hf. unfold value_at. simpl. now rewrite Hc, Hf. Qed.

Lemma value_at_new ch key : value_at (TrieNode_new ch : Node) key = None.
Proof. destruct key; reflexivity. Qed.

Lemma value_at_found node key v :
  value_at node key = Some v -> exists m, find_node_from node key = Some m.
Proof.
  unfold value_at. destruct (find_node_from node key) as [m|]; [eauto|discriminate].
Qed.

(** *** The creating walk *)

Lemma walk_or_create_spec key v : forall node node' r inserted,
  walk_or_create key v node = (node', r, inserted) ->
  character node' = character node /\
  value_at node' key = Some r /\
  (value_at node key = None -> inserted = true /\ r = v) /\
  (forall old, value_at node key = Some old ->
     inserted = false /\ r = old /\ node' = node).
Proof.
  induction key as [|ch key IH]; intros node node' r inserted Hw.
  - simpl in Hw. unfold store_if_absent in Hw. unfold value_at. simpl.
    destruct (opt_value node) as [old|] eqn:Hv; injection Hw as <- <- <-.
    + rewrite Hv. split; [reflexivity|]. split; [reflexivity|].
      split; [discriminate|]. now intros ? [= ->].
    + simpl. split; [reflexivity|]. split; [reflexivity|].
      split; [now split | discriminate].
  - simpl in Hw.
    destruct (find_if (labelled ch)
                match opt_children node with None => [] | Some c => c end)
      as [[it child]|] eqn:Hf.
    + (* an existing child is entered *)
      destruct (opt_children node) as [children|] eqn:Hc; [|discriminate].
      destruct (walk_or_create key v child) as [[child' r'] ins'] eqn:Hrec.
      injection Hw as <- <- <-.
      destruct (IH _ _ _ _ Hrec) as (Hch & Hval & Hnew & Hold).
      apply find_if_first_match in Hf.
      destruct (first_match_nth _ _ _ _ Hf) as [Hnth Hlab].
      assert (Hf' : find_if (labelled ch) (assign_at it child' children)
                    = Some (it, child')).
      { apply find_if_first_match. apply first_match_assign with (x := child); auto.
        apply labelled_iff. rewrite Hch. now apply labelled_iff. }
      apply find_if_first_match in Hf.
      rewrite (value_at_cons _ _ _ _ _ _ Hc Hf).
      rewrite (value_at_cons (set_children node _) _ _ _ _ _ eq_refl Hf').
      split; [reflexivity|]. split; [assumption|]. split; [assumption|].
      intros old Hsome. destruct (Hold old Hsome) as (-> & -> & ->).
      repeat split.
      rewrite assign_at_same by assumption. now apply set_children_same.
    + (* a fresh child is appended and entered *)
      destruct (walk_or_create key v (TrieNode_new ch)) as [[child' r'] ins'] eqn:Hrec.
      injection Hw as <- <- <-.
      destruct (IH _ _ _ _ Hrec) as (Hch & Hval & Hnew & _).
      destruct (Hnew (value_at_new ch key)) as [-> ->].
      assert (Hf' : find_if (labelled ch)
                      (emplace_back
                         match opt_children node with None => [] | Some c => c end
                         child')
                    = Some (List.length
                              match opt_children node with None => [] | Some c => c end,
                            child')).
      { apply find_if_first_match. apply first_match_emplace_back.
        - now apply find_if_none.
        - apply labelled_iff. now rewrite Hch. }
      rewrite (value_at_cons (set_children node _) _ _ _ _ _ eq_refl Hf').
      assert (Hnone : value_at node (ch :: key) = None).
      { destruct (opt_children node) as [children|] eqn:Hc.
        - now apply value_at_no_child with (children := children).
        - now apply value_at_no_children. }
      rewrite Hnone. repeat split; auto; discriminate.
Qed.
(** *** The erasing descent *)

Lemma count_values_pruned child :
  opt_children child = Some [] -> opt_value child = None -> count_values child = 0%nat.
Proof. intros Hc Hv. rewrite count_values_eq, Hc, Hv. reflexivity. Qed.

Lemma erase_recursive_spec key : forall node sz erased node' sz',
  erase_recursive node key sz = (erased, node', sz') ->
  character node' = character node /\
  (erased = true <-> value_at node key <> None) /\
  (erased = false -> node' = node /\ sz' = sz) /\
  (erased = true ->
     sz' = wrap (sz - 1) /\ S (count_values node') = count_values node).
Proof.
  induction key as [|ch key IH]; intros node sz erased node' sz' He.
  - simpl in He. unfold value_at. simpl.
    destruct (opt_value node) as [old|] eqn:Hv; injection He as <- <- <-.
    + split; [reflexivity|]. split; [split; [discriminate | reflexivity]|].
      split; [discriminate|]. intros _. split; [reflexivity|].
      rewrite (count_values_eq node), count_values_eq, Hv. reflexivity.
    + split; [reflexivity|]. split; [split; [discriminate | congruence]|].
      split; [now split | discriminate].
  - simpl in He.
    destruct (opt_children node) as [children|] eqn:Hc.
    2:{ injection He as <- <- <-. rewrite (value_at_no_children _ _ _ Hc).
        split; [reflexivity|]. split; [split; [discriminate | congruence]|].
        split; [now split | discriminate]. }
    destruct (find_if (labelled ch) children) as [[it child]|] eqn:Hf.
    2:{ injection He as <- <- <-. rewrite (value_at_no_child _ _ _ _ Hc Hf).
        split; [reflexivity|]. split; [split; [discriminate | congruence]|].
        split; [now split | discriminate]. }
    rewrite (value_at_cons _ _ _ _ _ _ Hc Hf).
    apply find_if_first_match in Hf.
    destruct (first_match_nth _ _ _ _ Hf) as [Hnth _].
    destruct (erase_recursive child key sz) as [[e child'] s'] eqn:Hrec.
    destruct (IH _ _ _ _ _ Hrec) as (Hch & Hiff & Hsame & Hgone).
    destruct e.
    + destruct (Hgone eq_refl) as [Hsz Hcount].
      assert (Hres : character node' = character node /\ sz' = s' /\
                     S (count_values node') = count_values node).
      { rewrite (count_values_eq node), Hc.
        destruct (opt_children child') as [[|c cs]|] eqn:Hc';
          [destruct (opt_value child') as [val|] eqn:Hv'| |];
          injection He as _ <- <-;
          (split; [reflexivity|]); (split; [reflexivity|]);
          rewrite count_values_eq; simpl.
        2:{ rewrite erase_at_assign_at.
            pose proof (list_sum_erase_at count_values _ _ _ Hnth) as Hsum.
            rewrite (count_values_pruned _ Hc' Hv') in Hcount. lia. }
        all: pose proof (list_sum_assign_at count_values _ _ _ child' Hnth) as Hsum;
          lia. }
      destruct Hres as (Hchar & -> & Hcnt).
      assert (erased = true) as ->.
      { destruct (opt_children child') as [[|c cs]|];
          [destruct (opt_value child')| |]; now injection He as <- _. }
      split; [assumption|]. split; [tauto|]. split; [discriminate|].
      intros _. now split.
    + destruct (Hsame eq_refl) as [-> ->].
      injection He as <- <- <-.
      rewrite assign_at_same by assumption.
      rewrite (set_children_same _ _ Hc).
      split; [reflexivity|]. split; [tauto|]. split; [now split | discriminate].
Qed.

Lemma NoDup_snoc {B} (l : list B) (x : B) :
  NoDup l -> ~ In x l -> NoDup (l ++ [x]).
Proof.
  induction 1 as [|y l Hy Hnd IH]; simpl; intros Hx.
  - constructor; [intros [] | constructor].
  - constructor.
    + rewrite in_app_iff. simpl. intros [Hin|[->|[]]]; [now apply Hy|].
      apply Hx. now left.
    + apply IH. intros Hin. apply Hx. now right.
Qed.

Lemma unique_labels_assign node children it child child' :
  unique_labels node ->
  opt_children node = Some children ->
  nth_error children it = Some child ->
  character child' = character child ->
  unique_labels child' ->
  unique_labels (set_children node (Some (assign_at it child' children))).
Proof.
  intros Hu Hc Hnth Hch Hu'. apply unique_labels_eq in Hu. rewrite Hc in Hu.
  destruct Hu as [Hnd Hall]. apply unique_labels_eq. simpl. split.
  - now rewrite (assign_at_map character _ _ child child').
  - intros c Hin. destruct (In_assign_at _ _ _ _ Hin) as [->|Hin']; auto.
Qed.

Lemma unique_labels_child node children child :
  unique_labels node -> opt_children node = Some children -> In child children ->
  unique_labels child.
Proof.
  intros Hu Hc Hin. apply unique_labels_eq in Hu. rewrite Hc in Hu. now apply Hu.
Qed.

Lemma erase_recursive_unique_labels key : forall node sz erased node' sz',
  unique_labels node ->
  erase_recursive node key sz = (erased, node', sz') ->
  unique_labels node'.
Proof.
  induction key as [|ch key IH]; intros node sz erased node' sz' Hu He.
  - simpl in He. destruct (opt_value node); injection He as _ <- _; [|assumption].
    apply unique_labels_eq. apply unique_labels_eq in Hu. exact Hu.
  - simpl in He.
    destruct (opt_children node) as [children|] eqn:Hc;
      [|injection He as _ <- _; assumption].
    destruct (find_if (labelled ch) children) as [[it child]|] eqn:Hf;
      [|injection He as _ <- _; assumption].
    apply find_if_first_match in Hf.
    destruct (first_match_nth _ _ _ _ Hf) as [Hnth _].
    pose proof (first_match_In _ _ _ _ Hf) as Hin.
    destruct (erase_recursive child key sz) as [[e child'] s'] eqn:Hrec.
    destruct (erase_recursive_spec _ _ _ _ _ _ Hrec) as (Hch & _).
    pose proof (IH _ _ _ _ _ (unique_labels_child _ _ _ Hu Hc Hin) Hrec) as Hu'.
    pose proof (unique_labels_assign _ _ _ _ _ Hu Hc Hnth Hch Hu') as Hassign.
    assert (Hprune : unique_labels
              (set_children node (Some (erase_at it (assign_at it child' children))))).
    { apply unique_labels_eq in Hassign. simpl in Hassign.
      destruct Hassign as [Hnd Hall]. apply unique_labels_eq. simpl. split.
      - rewrite erase_at_map. now apply NoDup_erase_at.
      - intros c Hc0. apply Hall. eapply In_erase_at; eauto. }
    destruct e; [|injection He as _ <- _; assumption].
    destruct (opt_children child') as [[|c cs]|];
      [destruct (opt_value child')| |]; injection He as _ <- _; assumption.
Qed.

Lemma erase_recursive_gone key : forall node sz node' sz',
  unique_labels node ->
  erase_recursive node key sz = (true, node', sz') ->
  value_at node' key = None.
Proof.
  induction key as [|ch key IH]; intros node sz node' sz' Hu He.
  - simpl in He. destruct (opt_value node); [|discriminate].
    injection He as <- _. reflexivity.
  - simpl in He.
    destruct (opt_children node) as [children|] eqn:Hc; [|discriminate].
    destruct (find_if (labelled ch) children) as [[it child]|] eqn:Hf; [|discriminate].
    apply find_if_first_match in Hf.
    destruct (first_match_nth _ _ _ _ Hf) as [Hnth Hlab].
    pose proof (first_match_In _ _ _ _ Hf) as Hin.
    destruct (erase_recursive child key sz) as [[e child'] s'] eqn:Hrec.
    destruct e; [|discriminate].
    destruct (erase_recursive_spec _ _ _ _ _ _ Hrec) as (Hch & _).
    pose proof (IH _ _ _ _ (unique_labels_child _ _ _ Hu Hc Hin) Hrec) as Hnone.
    assert (Hkeep : value_at (set_children node (Some (assign_at it child' children)))
                             (ch :: key) = None).
    { rewrite <- Hnone. apply value_at_cons with (children := assign_at it child' children)
                                                  (it := it); [reflexivity|].
      apply find_if_first_match. apply first_match_assign with (x := child); auto.
      apply labelled_iff. rewrite Hch. now apply labelled_iff. }
    assert (Hprune : value_at
              (set_children node (Some (erase_at it (assign_at it child' children))))
              (ch :: key) = None).
    { apply value_at_no_child with (children := erase_at it (assign_at it child' children));
        [reflexivity|].
      apply find_if_none. intros c Hc0.
      destruct (labelled ch c) eqn:Hl; [exfalso|reflexivity].
      apply labelled_iff in Hl. apply labelled_iff in Hlab.
      apply unique_labels_eq in Hu. rewrite Hc in Hu. destruct Hu as [Hnd _].
      rewrite erase_at_assign_at in Hc0.
      apply (NoDup_erase_at_fresh (map character children) it ch Hnd).
      - rewrite nth_error_map, Hnth. simpl. now rewrite Hlab.
      - rewrite <- erase_at_map. rewrite <- Hl. now apply in_map. }
    destruct (opt_children child') as [[|c cs]|];
      [destruct (opt_value child')| |]; injection He as <- _; assumption.
Qed.

(** *** Sibling labels stay distinct *)

Lemma unique_labels_set_value node val :
  unique_labels node -> unique_labels (set_value node val).
Proof. intros Hu. apply unique_labels_eq. now apply unique_labels_eq in Hu. Qed.

Lemma walk_or_create_unique_labels key v : forall node node' r inserted,
  unique_labels node ->
  walk_or_create key v node = (node', r, inserted) ->
  unique_labels node'.
Proof.
  induction key as [|ch key IH]; intros node node' r inserted Hu Hw.
  - simpl in Hw. unfold store_if_absent in Hw.
    destruct (opt_value node); injection Hw as <- _ _; [assumption|].
    now apply unique_labels_set_value.
  - simpl in Hw.
    destruct (find_if (labelled ch)
                match opt_children node with None => [] | Some c => c end)
      as [[it child]|] eqn:Hf.
    + destruct (opt_children node) as [children|] eqn:Hc; [|discriminate].
      apply find_if_first_match in Hf.
      destruct (first_match_nth _ _ _ _ Hf) as [Hnth _].
      pose proof (first_match_In _ _ _ _ Hf) as Hin.
      destruct (walk_or_create key v child) as [[child' r'] ins'] eqn:Hrec.
      injection Hw as <- _ _.
      destruct (walk_or_create_spec _ _ _ _ _ _ Hrec) as (Hch & _).
      apply unique_labels_assign with (child := child); auto.
      apply (IH _ _ _ _ (unique_labels_child _ _ _ Hu Hc Hin) Hrec).
    + destruct (walk_or_create key v (TrieNode_new ch)) as [[child' r'] ins'] eqn:Hrec.
      injection Hw as <- _ _.
      destruct (walk_or_create_spec _ _ _ _ _ _ Hrec) as (Hch & _).
      assert (Hu' : unique_labels child')
        by (apply (IH (TrieNode_new ch) _ _ _ I Hrec)).
      apply unique_labels_eq in Hu.
      pose proof (proj1 (find_if_none _ _) Hf) as Hfresh.
      apply unique_labels_eq. simpl. unfold emplace_back.
      destruct (opt_children node) as [children|].
      * destruct Hu as [Hnd Hall]. split.
        -- rewrite map_app. simpl. apply NoDup_snoc; [assumption|].
           intros Hin. apply in_map_iff in Hin. destruct Hin as (c & Hc0 & Hin).
           specialize (Hfresh c Hin). rewrite Hch in Hc0. simpl in Hc0.
           apply labelled_iff in Hc0. congruence.
        -- intros c Hin. apply in_app_iff in Hin.
           destruct Hin as [Hin|[<-|[]]]; auto.
      * simpl. split; [constructor; [intros []|constructor]|].
        intros c [<-|[]]. assumption.
Qed.

Lemma write_from_character key v : forall node,
  character (write_from key v node) = character node.
Proof.
  destruct key as [|ch key]; intros node; simpl.
  - now destruct (opt_value node).
  - destruct (opt_children node); [|reflexivity].
    now destruct (find_if (labelled ch) l) as [[it child]|].
Qed.

Lemma write_from_unique_labels key v : forall node,
  unique_labels node -> unique_labels (write_from key v node).
Proof.
  induction key as [|ch key IH]; intros node Hu; simpl.
  - destruct (opt_value node); [|assumption]. now apply unique_labels_set_value.
  - destruct (opt_children node) as [children|] eqn:Hc; [|assumption].
    destruct (find_if (labelled ch) children) as [[it child]|] eqn:Hf; [|assumption].
    apply find_if_first_match in Hf.
    destruct (first_match_nth _ _ _ _ Hf) as [Hnth _].
    apply unique_labels_assign with (child := child); auto.
    + apply write_from_character.
    + apply IH. eapply unique_labels_child; eauto.
      eapply first_match_In; eauto.
Qed.

(** Every state a client can reach keeps sibling labels distinct. *)
Lemma reachable_unique_labels t : reachable t -> unique_labels (m_root t).
Proof.
  induction 1 as [s|t key Hr IH|t [key v] Hr IH|t key Hr IH|t key Hr IH|t Hr IH
                  |t key v Hr IH].
  - exact I.
  - unfold subscript, find_or_insert.
    destruct (walk_or_create key default_value (m_root t)) as [[root' r] ins] eqn:Hw.
    simpl. eapply walk_or_create_unique_labels; eauto.
  - unfold insert. simpl fst at 2. simpl snd.
    destruct (walk_or_create key v (m_root t)) as [[root' r] ins] eqn:Hw.
    simpl. eapply walk_or_create_unique_labels; eauto.
  - unfold at_. destruct (find_node t key) as [m|]; [destruct (opt_value m)|];
      assumption.
  - unfold erase.
    destruct (erase_recursive (m_root t) key (m_size t)) as [[e root'] sz'] eqn:He.
    simpl. eapply erase_recursive_unique_labels; eauto.
  - apply unique_labels_eq. exact I.
  - simpl. now apply write_from_unique_labels.
Qed.

(** *** Paths *)

Lemma find_node_from_node_at key : forall node m,
  find_node_from node key = Some m -> node_at node key m.
Proof.
  induction key as [|ch key IH]; intros node m Hf; simpl in Hf.
  - injection Hf as <-. constructor.
  - destruct (opt_children node) as [children|] eqn:Hc; [|discriminate].
    destruct (find_if (labelled ch) children) as [[it child]|] eqn:Hfi; [|discriminate].
    apply find_if_first_match in Hfi.
    destruct (first_match_nth _ _ _ _ Hfi) as [_ Hlab].
    apply node_at_cons with (children := children) (child := child); auto.
    + eapply first_match_In; eauto.
    + now apply labelled_iff.
Qed.

Lemma node_at_find_node_from node key m :
  unique_labels node -> node_at node key m -> find_node_from node key = Some m.
Proof.
  intros Hu Hp. induction Hp as [n|n children child ch key m Hc Hin Hch Hp IH].
  - reflexivity.
  - simpl. rewrite Hc.
    destruct (find_if (labelled ch) children) as [[it child0]|] eqn:Hf.
    + apply find_if_first_match in Hf.
      destruct (first_match_nth _ _ _ _ Hf) as [_ Hlab].
      apply labelled_iff in Hlab.
      pose proof (first_match_In _ _ _ _ Hf) as Hin0.
      apply unique_labels_eq in Hu as Hu'. rewrite Hc in Hu'. destruct Hu' as [Hnd Hall].
      assert (child0 = child) as ->
        by (apply (NoDup_map_inj character children); congruence).
      apply IH. now apply Hall.
    + pose proof (proj1 (find_if_none _ _) Hf child Hin) as Hno.
      apply labelled_iff in Hch. congruence.
Qed.

Lemma find_node_from_prefix key : forall node m n,
  find_node_from node key = Some m ->
  exists m', find_node_from node (firstn n key) = Some m'.
Proof.
  induction key as [|ch key IH]; intros node m n Hf.
  - rewrite firstn_nil. eauto.
  - destruct n as [|n]; [simpl; eauto|].
    simpl in *. destruct (opt_children node) as [children|]; [|discriminate].
    destruct (find_if (labelled ch) children) as [[it child]|]; [|discriminate].
    eapply IH; eauto.
Qed.

(** *** Values are counted *)

Lemma wrap_small z : 0 <= z <= SIZE_MAX -> wrap z = z.
Proof. intros Hz. unfold wrap. apply Z.mod_small. unfold SIZE_MAX in Hz. lia. Qed.

Lemma walk_or_create_count key v : forall node node' r inserted,
  walk_or_create key v node = (node', r, inserted) ->
  count_values node' = (count_values node + if inserted then 1 else 0)%nat.
Proof.
  induction key as [|ch key IH]; intros node node' r inserted Hw.
  - simpl in Hw. unfold store_if_absent in Hw.
    destruct (opt_value node) as [old|] eqn:Hv; injection Hw as <- _ <-.
    + lia.
    + rewrite (count_values_eq node), count_values_eq, Hv. simpl. lia.
  - simpl in Hw. rewrite (count_values_eq node).
    destruct (find_if (labelled ch)
                match opt_children node with None => [] | Some c => c end)
      as [[it child]|] eqn:Hf.
    + destruct (opt_children node) as [children|] eqn:Hc; [|discriminate].
      apply find_if_first_match in Hf.
      destruct (first_match_nth _ _ _ _ Hf) as [Hnth _].
      destruct (walk_or_create key v child) as [[child' r'] ins'] eqn:Hrec.
      injection Hw as <- _ <-. specialize (IH _ _ _ _ Hrec).
      rewrite count_values_eq. simpl.
      pose proof (list_sum_assign_at count_values _ _ _ child' Hnth). lia.
    + destruct (walk_or_create key v (TrieNode_new ch)) as [[child' r'] ins'] eqn:Hrec.
      injection Hw as <- _ <-. specialize (IH _ _ _ _ Hrec). simpl in IH.
      rewrite count_values_eq. simpl. unfold emplace_back.
      rewrite map_app, list_sum_app. simpl.
      destruct (opt_children node); simpl; lia.
Qed.

Lemma write_from_count key v : forall node,
  count_values (write_from key v node) = count_values node.
Proof.
  induction key as [|ch key IH]; intros node; simpl.
  - destruct (opt_value node) eqn:Hv; [|reflexivity].
    rewrite (count_values_eq node), count_values_eq, Hv. reflexivity.
  - destruct (opt_children node) as [children|] eqn:Hc; [|reflexivity].
    destruct (find_if (labelled ch) children) as [[it child]|] eqn:Hf; [|reflexivity].
    apply find_if_first_match in Hf.
    destruct (first_match_nth _ _ _ _ Hf) as [Hnth _].
    rewrite (count_values_eq node), count_values_eq, Hc. simpl.
    pose proof (list_sum_assign_at count_values _ _ _ (write_from key v child) Hnth).
    rewrite IH in *. lia.
Qed.

Lemma write_from_value_at key v : forall node old,
  value_at node key = Some old -> value_at (write_from key v node) key = Some v.
Proof.
  induction key as [|ch key IH]; intros node old Hv.
  - unfold value_at in *. simpl in *. rewrite Hv. reflexivity.
  - simpl.
    destruct (opt_children node) as [children|] eqn:Hc;
      [|now rewrite (value_at_no_children _ _ _ Hc) in Hv].
    destruct (find_if (labelled ch) children) as [[it child]|] eqn:Hf;
      [|now rewrite (value_at_no_child _ _ _ _ Hc Hf) in Hv].
    rewrite (value_at_cons _ _ _ _ _ _ Hc Hf) in Hv.
    apply find_if_first_match in Hf.
    destruct (first_match_nth _ _ _ _ Hf) as [Hnth Hlab].
    rewrite (value_at_cons (set_children node _) ch key _ it (write_from key v child)
               eq_refl).
    + eapply IH; eauto.
    + apply find_if_first_match. apply first_match_assign with (x := child); auto.
      apply labelled_iff. rewrite write_from_character. now apply labelled_iff.
Qed.

(** The count stays right under every member but [clear], as long as it does
    not overflow; [clear] keeps it right when the root stores no value. *)
Lemma insert_size_consistent t kv :
  size_consistent t -> m_size t < SIZE_MAX -> size_consistent (fst (insert t kv)).
Proof.
  intros [Hcount Hmax] Hroom. unfold insert.
  destruct (walk_or_create (fst kv) (snd kv) (m_root t)) as [[root' r] ins] eqn:Hw.
  pose proof (walk_or_create_count _ _ _ _ _ _ Hw) as Hc.
  unfold size_consistent. cbn [fst m_root m_size].
  destruct ins; [rewrite wrap_small by lia|]; lia.
Qed.

Lemma subscript_size_consistent t key :
  size_consistent t -> m_size t < SIZE_MAX -> size_consistent (fst (subscript t key)).
Proof.
  intros [Hcount Hmax] Hroom. unfold subscript, find_or_insert.
  destruct (walk_or_create key default_value (m_root t)) as [[root' r] ins] eqn:Hw.
  pose proof (walk_or_create_count _ _ _ _ _ _ Hw) as Hc.
  unfold size_consistent. cbn [fst m_root m_size].
  destruct ins; [rewrite wrap_small by lia|]; lia.
Qed.

Lemma erase_size_consistent t key :
  size_consistent t -> size_consistent (fst (erase t key)).
Proof.
  intros [Hcount Hmax]. unfold erase.
  destruct (erase_recursive (m_root t) key (m_size t)) as [[e root'] sz'] eqn:He.
  destruct (erase_recursive_spec _ _ _ _ _ _ He) as (_ & _ & Hsame & Hgone).
  unfold size_consistent. cbn [fst m_root m_size]. destruct e.
  - destruct (Hgone eq_refl) as [-> Hcnt]. rewrite wrap_small by lia. lia.
  - destruct (Hsame eq_refl) as [-> ->]. now split.
Qed.

Lemma write_size_consistent t key v :
  size_consistent t -> size_consistent (write t key v).
Proof.
  unfold size_consistent, write. cbn [m_root m_size]. now rewrite write_from_count.
Qed.

Lemma clear_size_consistent t :
  opt_value (m_root t) = None -> size_consistent (clear t).
Proof.
  intros Hv. unfold size_consistent, clear. cbn [m_root m_size].
  rewrite count_values_eq. simpl. rewrite Hv. now vm_compute.
Qed.

Lemma clear_drops_every_child t ch key :
  size (clear t) = 0 /\ contains (clear t) (ch :: key) = false.
Proof. split; reflexivity. Qed.

(** *** The pruning test never fires *)

Lemma never_empty_eq node :
  never_empty node <->
  match opt_children node with
  | None => True
  | Some children => children <> [] /\ (forall c, In c children -> never_empty c)
  end.
Proof.
  destruct node as [c [children|] val]; simpl; [|tauto].
  assert (Hfold : fold_right (fun c acc => never_empty c /\ acc) True children <->
                  (forall c, In c children -> never_empty c)).
  { induction children as [|x xs IH]; simpl.
    - split; [intros _ ? [] | trivial].
    - rewrite IH. split.
      + intros [Hx Hxs] y [<-|Hy]; auto.
      + intros Hall. split; auto. }
  tauto.
Qed.

Lemma never_empty_assign node children it child child' :
  never_empty node ->
  opt_children node = Some children ->
  nth_error children it = Some child ->
  never_empty child' ->
  never_empty (set_children node (Some (assign_at it child' children))).
Proof.
  intros Hn Hc Hnth Hn'. apply never_empty_eq in Hn. rewrite Hc in Hn.
  destruct Hn as [_ Hall]. apply never_empty_eq. simpl. split.
  - destruct children, it; simpl in *; discriminate.
  - intros c Hin. destruct (In_assign_at _ _ _ _ Hin) as [->|Hin']; auto.
Qed.

Lemma never_empty_child node children child :
  never_empty node -> opt_children node = Some children -> In child children ->
  never_empty child.
Proof.
  intros Hn Hc Hin. apply never_empty_eq in Hn. rewrite Hc in Hn. now apply Hn.
Qed.

Lemma never_empty_set_value node val :
  never_empty node -> never_empty (set_value node val).
Proof. intros Hn. apply never_empty_eq. now apply never_empty_eq in Hn. Qed.

Lemma walk_or_create_never_empty key v : forall node node' r inserted,
  never_empty node ->
  walk_or_create key v node = (node', r, inserted) ->
  never_empty node'.
Proof.
  induction key as [|ch key IH]; intros node node' r inserted Hn Hw.
  - simpl in Hw. unfold store_if_absent in Hw.
    destruct (opt_value node); injection Hw as <- _ _; [assumption|].
    now apply never_empty_set_value.
  - simpl in Hw.
    destruct (find_if (labelled ch)
                match opt_children node with None => [] | Some c => c end)
      as [[it child]|] eqn:Hf.
    + destruct (opt_children node) as [children|] eqn:Hc; [|discriminate].
      apply find_if_first_match in Hf.
      destruct (first_match_nth _ _ _ _ Hf) as [Hnth _].
      pose proof (first_match_In _ _ _ _ Hf) as Hin.
      destruct (walk_or_create key v child) as [[child' r'] ins'] eqn:Hrec.
      injection Hw as <- _ _.
      apply never_empty_assign with (child := child); auto.
      apply (IH _ _ _ _ (never_empty_child _ _ _ Hn Hc Hin) Hrec).
    + destruct (walk_or_create key v (TrieNode_new ch)) as [[child' r'] ins'] eqn:Hrec.
      injection Hw as <- _ _.
      assert (Hn' : never_empty child')
        by (apply (IH (TrieNode_new ch) _ _ _ I Hrec)).
      apply never_empty_eq in Hn.
      apply never_empty_eq. simpl. unfold emplace_back. split.
      * intros Hnil. apply app_eq_nil in Hnil. destruct Hnil as [_ [=]].
      * intros c Hin. apply in_app_iff in Hin.
        destruct (opt_children node) as [children|]; simpl in Hin.
        -- destruct Hin as [Hin|[<-|[]]]; auto. now apply Hn.
        -- destruct Hin as [[]|[<-|[]]]. assumption.
Qed.

Lemma erase_recursive_never_prunes key : forall node sz erased node' sz',
  never_empty node ->
  erase_recursive node key sz = (erased, node', sz') ->
  never_empty node' /\ count_nodes node' = count_nodes node.
Proof.
  induction key as [|ch key IH]; intros node sz erased node' sz' Hn He.
  - simpl in He. destruct (opt_value node); injection He as _ <- _; [|now split].
    split; [now apply never_empty_set_value | now destruct node].
  - simpl in He.
    destruct (opt_children node) as [children|] eqn:Hc;
      [|injection He as _ <- _; now split].
    destruct (find_if (labelled ch) children) as [[it child]|] eqn:Hf;
      [|injection He as _ <- _; now split].
    apply find_if_first_match in Hf.
    destruct (first_match_nth _ _ _ _ Hf) as [Hnth _].
    pose proof (first_match_In _ _ _ _ Hf) as Hin.
    destruct (erase_recursive child key sz) as [[e child'] s'] eqn:Hrec.
    destruct (IH _ _ _ _ _ (never_empty_child _ _ _ Hn Hc Hin) Hrec) as [Hn' Hcnt].
    assert (Hkeep : never_empty (set_children node (Some (assign_at it child' children)))
                    /\ count_nodes (set_children node (Some (assign_at it child' children)))
                       = count_nodes node).
    { split; [now apply never_empty_assign with (child := child)|].
      destruct node as [c oc val]. simpl in *. subst oc. f_equal.
      pose proof (list_sum_assign_at count_nodes _ _ _ child' Hnth). lia. }
    destruct e; [|injection He as _ <- _; assumption].
    destruct (opt_children child') as [[|c cs]|] eqn:Hc';
      [destruct (opt_value child')| |]; injection He as _ <- _; try assumption.
    exfalso. apply never_empty_eq in Hn'. rewrite Hc' in Hn'. now destruct Hn'.
Qed.

Lemma write_from_never_empty key v : forall node,
  never_empty node -> never_empty (write_from key v node).
Proof.
  induction key as [|ch key IH]; intros node Hn; simpl.
  - destruct (opt_value node); [|assumption]. now apply never_empty_set_value.
  - destruct (opt_children node) as [children|] eqn:Hc; [|assumption].
    destruct (find_if (labelled ch) children) as [[it child]|] eqn:Hf; [|assumption].
    apply find_if_first_match in Hf.
    destruct (first_match_nth _ _ _ _ Hf) as [Hnth _].
    apply never_empty_assign with (child := child); auto.
    apply IH. eapply never_empty_child; eauto. eapply first_match_In; eauto.
Qed.

Lemma reachable_never_empty t : reachable t -> never_empty (m_root t).
Proof.
  induction 1 as [s|t key Hr IH|t [key v] Hr IH|t key Hr IH|t key Hr IH|t Hr IH
                  |t key v Hr IH].
  - exact I.
  - unfold subscript, find_or_insert.
    destruct (walk_or_create key default_value (m_root t)) as [[root' r] ins] eqn:Hw.
    simpl. eapply walk_or_create_never_empty; eauto.
  - unfold insert. simpl fst at 2. simpl snd.
    destruct (walk_or_create key v (m_root t)) as [[root' r] ins] eqn:Hw.
    simpl. eapply walk_or_create_never_empty; eauto.
  - unfold at_. destruct (find_node t key) as [m|]; [destruct (opt_value m)|];
      assumption.
  - unfold erase.
    destruct (erase_recursive (m_root t) key (m_size t)) as [[e root'] sz'] eqn:He.
    simpl. eapply erase_recursive_never_prunes; eauto.
  - apply never_empty_eq. exact I.
  - simpl. now apply write_from_never_empty.
Qed.

(** In every state a client can reach, [erase] removes no node at all. *)
Lemma erase_never_prunes t key :
  reachable t -> count_nodes (m_root (fst (erase t key))) = count_nodes (m_root t).
Proof.
  intros Hr. unfold erase.
  destruct (erase_recursive (m_root t) key (m_size t)) as [[e root'] sz'] eqn:He.
  simpl. eapply erase_recursive_never_prunes; eauto using reachable_never_empty.
Qed.

(** *** The cursor's loop ends *)

Lemma push_children_eq children (prefix : key_t) (st : list (Node * key_t)) :
  push_children children prefix st =
  map (fun c => (c, prefix ++ [character c])) children ++ st.
Proof.
  unfold push_children. revert st. induction children as [|c cs IH]; intros st.
  - reflexivity.
  - simpl. rewrite fold_left_app. simpl. now rewrite IH.
Qed.

Lemma stack_nodes_push children (prefix : key_t) (st : list (Node * key_t)) :
  stack_nodes (push_children children prefix st) =
  (list_sum (map count_nodes children) + stack_nodes st)%nat.
Proof.
  rewrite push_children_eq. unfold stack_nodes.
  rewrite map_app, list_sum_app, map_map. reflexivity.
Qed.

Lemma advance_loop_ends fuel : forall (st : list (Node * key_t)) cur,
  (stack_nodes st < fuel)%nat -> exists it, advance_loop fuel st cur = Some it.
Proof.
  induction fuel as [|fuel IH]; intros st cur Hlt; [lia|].
  destruct st as [|[node prefix] st]; simpl; [eauto|].
  assert (Hnode : stack_nodes ((node, prefix) :: st) =
                  (count_nodes node + stack_nodes st)%nat) by reflexivity.
  destruct node as [c oc val]. simpl in *.
  destruct val as [v|]; destruct oc as [children|]; eauto; apply IH.
  - rewrite stack_nodes_push. lia.
  - lia.
Qed.

(** [advance()] always returns. *)
Lemma advance_total (it : @iterator PrefixEltType ValueType) :
  exists it', advance it = Some it'.
Proof. unfold advance. apply advance_loop_ends. lia. Qed.

(** Iterating from [begin()] ends at once, whatever the trie holds. *)
Lemma iterate_nothing t fuel : iterate (S fuel) t = Some [].
Proof. reflexivity. Qed.

(** *** The public members in terms of the walks *)

Lemma find_value_at t key : find t key = value_at (m_root t) key.
Proof. reflexivity. Qed.

Lemma contains_find_node t key :
  contains t key = true <-> exists m, find_node_from (m_root t) key = Some m.
Proof.
  unfold contains, find_node.
  destruct (find_node_from (m_root t) key) as [m|]; split; eauto;
    [discriminate | intros [m [=]]].
Qed.

(** ** The claims that hold of every trie *)

(** C10: [contains(k)] is true for every key [k] whose full element path
    exists in the tree, whether or not the node at its end stores a value.
    So it is true for every prefix of a stored key, and for the empty key in
    every state. *)
Theorem contains_true_on_every_existing_path t :
  reachable t ->
  (forall key m, node_at (m_root t) key m -> contains t key = true) /\
  (forall key m, node_at (m_root t) key m -> opt_value m = None ->
     contains t key = true /\ find t key = None) /\
  (forall key v n, find t key = Some v -> contains t (firstn n key) = true) /\
  contains t [] = true.
Proof.
  intros Hr. pose proof (reachable_unique_labels t Hr) as Hu.
  assert (Hpath : forall key m, node_at (m_root t) key m -> contains t key = true).
  { intros key m Hp. apply contains_find_node. exists m.
    now apply node_at_find_node_from. }
  split; [exact Hpath|]. split; [|split].
  - intros key m Hp Hv. split; [now apply (Hpath key m)|].
    rewrite find_value_at. unfold value_at.
    now rewrite (node_at_find_node_from _ _ _ Hu Hp).
  - intros key v n Hf. rewrite find_value_at in Hf.
    destruct (value_at_found _ _ _ Hf) as [m Hm].
    apply contains_find_node. eapply find_node_from_prefix; eauto.
  - reflexivity.
Qed.

(** C9: [at(k)] throws exactly when no node exists at the path of [k] or the
    node there stores no value; otherwise it returns the stored value.  In
    both cases the trie is left as it was. *)
Theorem at_throws_exactly_without_value t key :
  reachable t ->
  fst (at_ t key) = t /\
  (snd (at_ t key) = inl (out_of_range "Key not found in Trie") <->
     ~ (exists m, node_at (m_root t) key m) \/
     (exists m, node_at (m_root t) key m /\ opt_value m = None)) /\
  (forall m v, node_at (m_root t) key m -> opt_value m = Some v ->
     snd (at_ t key) = inr v).
Proof.
  intros Hr. pose proof (reachable_unique_labels t Hr) as Hu.
  unfold at_, find_node.
  destruct (find_node_from (m_root t) key) as [m|] eqn:Hf.
  - pose proof (find_node_from_node_at _ _ _ Hf) as Hp.
    assert (Huniq : forall m', node_at (m_root t) key m' -> m' = m).
    { intros m' Hp'. apply (node_at_find_node_from _ _ _ Hu) in Hp'. congruence. }
    destruct (opt_value m) as [val|] eqn:Hv; simpl.
    + split; [reflexivity|]. split.
      * split; [discriminate|]. intros [Hno|(m' & Hp' & Hv')].
        -- exfalso. apply Hno. eauto.
        -- rewrite (Huniq _ Hp') in Hv'. congruence.
      * intros m' v Hp' Hv'. rewrite (Huniq _ Hp') in Hv'. congruence.
    + split; [reflexivity|]. split.
      * split; [|reflexivity]. intros _. right. eauto.
      * intros m' v Hp' Hv'. rewrite (Huniq _ Hp') in Hv'. congruence.
  - simpl. split; [reflexivity|].
    assert (Hno : ~ (exists m, node_at (m_root t) key m)).
    { intros [m Hp]. apply (node_at_find_node_from _ _ _ Hu) in Hp. congruence. }
    split.
    + split; [now left | reflexivity].
    + intros m v Hp. exfalso. apply Hno. eauto.
Qed.

(** C8: [insert(k, v)] stores [v] at [k] and reports [inserted = true] only
    when no value is stored at [k]; a value already there is kept.  So a
    second [insert] at the same key reports [inserted = false] and [find(k)]
    yields what it yielded after the first: [v] when the first stored it. *)
Theorem insert_only_if_absent t key v :
  let t' := fst (insert t (key, v)) in
  let r := fst (snd (insert t (key, v))) in
  let inserted := snd (snd (insert t (key, v))) in
  (inserted = true <-> find t key = None) /\
  (inserted = true -> find t' key = Some v /\ r = v) /\
  (forall old, find t key = Some old ->
     inserted = false /\ t' = t /\ r = old /\ find t' key = Some old) /\
  (forall v2,
     snd (snd (insert t' (key, v2))) = false /\
     fst (insert t' (key, v2)) = t' /\
     find (fst (insert t' (key, v2))) key = find t' key /\
     (find t key = None -> find (fst (insert t' (key, v2))) key = Some v)).
Proof.
  unfold insert. simpl fst. simpl snd.
  destruct (walk_or_create key v (m_root t)) as [[root' r] ins] eqn:Hw.
  destruct (walk_or_create_spec _ _ _ _ _ _ Hw) as (_ & Hval & Hnew & Hold).
  cbn [fst snd]. rewrite !find_value_at. cbn [m_root m_size].
  assert (Hiff : ins = true <-> value_at (m_root t) key = None).
  { split.
    - intros ->. destruct (value_at (m_root t) key) as [old|] eqn:Hv; [|reflexivity].
      now destruct (Hold old eq_refl).
    - intros Hv. now destruct (Hnew Hv). }
  split; [exact Hiff|]. split; [|split].
  - intros Hins. apply Hiff in Hins. destruct (Hnew Hins) as [_ ->]. now split.
  - intros old Hv. destruct (Hold old Hv) as (-> & -> & ->).
    repeat split; auto. now destruct t.
  - intros v2.
    destruct (walk_or_create key v2 root') as [[root'' r2] ins2] eqn:Hw2.
    destruct (walk_or_create_spec _ _ _ _ _ _ Hw2) as (_ & _ & _ & Hold2).
    destruct (Hold2 r Hval) as (-> & -> & ->).
    cbn [fst snd]. rewrite !find_value_at. cbn [m_root].
    split; [reflexivity|]. split; [reflexivity|]. split; [reflexivity|].
    intros Hv. destruct (Hnew Hv) as [_ <-]. exact Hval.
Qed.

(** X18: after [operator[](k)], [contains(k)] is true and the reference
    returned designates the value stored at [k]: it reads as what [find(k)]
    yields, and what is written through it is what [find(k)] yields next.
    When no value was stored at [k], that value is a default-constructed one
    and the count is incremented once: by one in [std::size_t] arithmetic,
    which is one more whenever the count was below [SIZE_MAX].  Otherwise the
    size, and the whole trie, stay as they were. *)
Theorem subscript_creates_default t key :
  let t' := fst (subscript t key) in
  let r := snd (subscript t key) in
  contains t' key = true /\
  find t' key = Some r /\
  (forall v, find (write t' key v) key = Some v) /\
  (find t key = None ->
     r = default_value /\
     size t' = wrap (size t + 1) /\
     (0 <= size t < SIZE_MAX -> size t' = size t + 1)) /\
  (forall old, find t key = Some old -> r = old /\ size t' = size t /\ t' = t).
Proof.
  unfold subscript, find_or_insert, size.
  destruct (walk_or_create key default_value (m_root t)) as [[root' r] ins] eqn:Hw.
  destruct (walk_or_create_spec _ _ _ _ _ _ Hw) as (_ & Hval & Hnew & Hold).
  cbn [fst snd]. rewrite !find_value_at. cbn [m_root m_size].
  split; [|split; [exact Hval|split; [|split]]].
  - apply contains_find_node. cbn [m_root]. eapply value_at_found; eauto.
  - intros v. rewrite find_value_at. cbn [write m_root].
    eapply write_from_value_at; eauto.
  - intros Hv. destruct (Hnew Hv) as [-> ->]. split; [reflexivity|].
    split; [reflexivity|]. intros Hsz. apply wrap_small. lia.
  - intros old Hv. destruct (Hold old Hv) as (-> & -> & ->).
    repeat split. now destruct t.
Qed.

(** X17: in every reachable state [erase(k)] returns true exactly when a
    value was stored at [k].  When it returns true [find(k)] yields nothing
    afterwards and the count is decremented once: by one in [std::size_t]
    arithmetic, which is one less whenever the count agreed with the stored
    values, and the count then agrees again.  When it returns false the trie
    is left as it was.  So an [erase(k)] that follows at once returns false
    and changes nothing. *)
Theorem erase_reports_removal t key :
  reachable t ->
  let t' := fst (erase t key) in
  let erased := snd (erase t key) in
  (erased = true <-> find t key <> None) /\
  (erased = true ->
     find t' key = None /\
     size t' = wrap (size t - 1) /\
     (size_consistent t -> size t' = size t - 1 /\ size_consistent t')) /\
  (erased = false -> t' = t) /\
  erase t' key = (t', false).
Proof.
  intros Hr. pose proof (reachable_unique_labels t Hr) as Hu.
  unfold erase, size.
  destruct (erase_recursive (m_root t) key (m_size t)) as [[e root'] sz'] eqn:He.
  destruct (erase_recursive_spec _ _ _ _ _ _ He) as (_ & Hiff & Hsame & Hgone).
  cbn [fst snd]. rewrite !find_value_at. cbn [m_root m_size].
  split; [exact Hiff|]. split; [|split].
  - intros ->. destruct (Hgone eq_refl) as [-> Hcnt].
    split; [eapply erase_recursive_gone; eauto|].
    split; [reflexivity|].
    intros [Hcount Hmax]. rewrite wrap_small by lia.
    split; [reflexivity|].
    unfold size_consistent. cbn [m_root m_size]. lia.
  - intros ->. destruct (Hsame eq_refl) as [-> ->]. now destruct t.
  - destruct (erase_recursive root' key sz') as [[e2 root''] sz''] eqn:He2.
    destruct (erase_recursive_spec _ _ _ _ _ _ He2) as (_ & Hiff2 & Hsame2 & _).
    assert (e2 = false) as ->.
    { destruct e2; [exfalso|reflexivity].
      apply (proj1 Hiff2 eq_refl).
      destruct e.
      - eapply erase_recursive_gone; eauto.
      - destruct (Hsame eq_refl) as [-> ->]. rewrite He in He2. discriminate. }
    now destruct (Hsame2 eq_refl) as [-> ->].
Qed.

End TrieFacts.

(** ** The claims the code departs from, on [Trie<char, int>] *)

Import CharInt.

Lemma abc_trie_reachable : reachable abc_trie.
Proof.
  exact (reach_insert _ (sv "b", 3)
           (reach_insert _ (sv "ab", 2)
              (reach_insert _ (sv "a", 1) (reach_new zero)))).
Defined.

(** C1: [contains(k)] should be true only when the node at the path of [k]
    stores a value, and false after [erase(k)].  The code answers true for
    the empty key of an empty trie, for the valueless prefix "a" of the only
    stored key "ab", and for "a" right after a successful [erase("a")] that
    has to keep the node for "ab". *)
Theorem contains_ignores_missing_value :
  (contains empty_trie empty_key = true /\ find empty_trie empty_key = None) /\
  (let t := fst (insert empty_trie (sv "ab", 2)) in
   contains t (sv "a") = true /\ find t (sv "a") = None) /\
  (let t := fst (erase abc_trie (sv "a")) in
   snd (erase abc_trie (sv "a")) = true /\
   contains t (sv "a") = true /\ find t (sv "a") = None).
Proof. vm_compute. repeat split. Qed.

(** C2: after [erase(k)] no node other than the root should be left with no
    value and an absent or empty children vector.  Erasing the only key "a"
    leaves its node in place: the value is gone and the children vector was
    never created, which the pruning test (present and empty) does not
    match. *)
Theorem erase_leaves_dead_leaf :
  let t := fst (insert empty_trie (sv "a", 1)) in
  snd (erase t (sv "a")) = true /\
  m_root (fst (erase t (sv "a"))) =
    mkTrieNode zero (Some [mkTrieNode "a"%char None None]) None /\
  dead_below (m_root (fst (erase t (sv "a")))) = true.
Proof. vm_compute. repeat split. Qed.

(** C3: iterating from [begin()] to [end()] should yield ("a",1), ("ab",2),
    ("b",3) for the trie built by those three insertions.  Both members
    return the default cursor, so the loop ends before its first round and
    yields nothing, although the three values are stored. *)
Theorem iterate_from_begin_yields_nothing :
  (forall fuel, iterate (S fuel) abc_trie = Some []) /\
  find abc_trie (sv "a") = Some 1 /\
  find abc_trie (sv "ab") = Some 2 /\
  find abc_trie (sv "b") = Some 3 /\
  size abc_trie = 3.
Proof. split; [intros fuel; reflexivity | vm_compute; repeat split]. Qed.

(** The cursor the constructor [iterator(TrieNode* root)] builds from the root
    does walk in pre-order, but it compares equal to [end()] as soon as its
    stack is empty, which is when it stands on the last pair. *)
Example cursor_from_root_drops_last :
  option_map (collect 4) (iterator_from (Some (m_root abc_trie))) =
  Some (Some [(sv "a", 1); (sv "ab", 2)]).
Proof. reflexivity. Qed.

(** C4: [size()] should equal the number of nodes that store a value in
    every reachable state.  Storing a value at the empty key puts it in the
    root, and [clear()] resets the children and the count but not that value:
    the size reads 0 with one value stored, and erasing the empty key then
    wraps the count around. *)
Theorem clear_keeps_root_value :
  let t := clear (fst (insert empty_trie (empty_key, 1))) in
  reachable t /\
  size t = 0 /\
  count_values (m_root t) = 1%nat /\
  snd (erase t empty_key) = true /\
  size (fst (erase t empty_key)) = SIZE_MAX.
Proof.
  split; [|vm_compute; repeat split].
  exact (reach_clear _ (reach_insert _ (empty_key, 1) (reach_new zero))).
Qed.

(** C5: after [clear()], [contains] should be false for every key inserted
    before.  The empty key was inserted, and after [clear()] the size is 0
    but [contains] is still true, and [find] still returns the value. *)
Theorem clear_keeps_empty_key :
  let t0 := fst (insert empty_trie (empty_key, 1)) in
  snd (snd (insert empty_trie (empty_key, 1))) = true /\
  size (clear t0) = 0 /\
  contains (clear t0) empty_key = true /\
  find (clear t0) empty_key = Some 1.
Proof. vm_compute. repeat split. Qed.

(** C6: when [erase(k)] returns true the size should drop by exactly one.
    In the state [clear()] leaves after a value was stored at the empty key,
    the count is 0 with that value still in the root: [erase] of the empty
    key finds it and returns true, and the decrement of the count wraps to
    [SIZE_MAX]. *)
Theorem erase_wraps_size_after_clear :
  let t := clear (fst (insert empty_trie (empty_key, 1))) in
  reachable t /\
  find t empty_key = Some 1 /\
  size t = 0 /\
  snd (erase t empty_key) = true /\
  size (fst (erase t empty_key)) = SIZE_MAX /\
  size (fst (erase t empty_key)) <> size t - 1.
Proof.
  split; [|vm_compute; repeat split; discriminate].
  exact (reach_clear _ (reach_insert _ (empty_key, 1) (reach_new zero))).
Qed.

(** C7: when [operator[](k)] creates a value the size should grow by exactly
    one.  After the calls above the count stands at [SIZE_MAX] with nothing
    stored; [operator[]] on a new key then creates its value and the
    increment of the count wraps to 0. *)
Theorem subscript_wraps_size_to_zero :
  let t := fst (erase (clear (fst (insert empty_trie (empty_key, 1)))) empty_key) in
  reachable t /\
  find t (sv "a") = None /\
  size t = SIZE_MAX /\
  contains (fst (subscript t (sv "a"))) (sv "a") = true /\
  find (fst (subscript t (sv "a"))) (sv "a") = Some 0 /\
  size (fst (subscript t (sv "a"))) = 0 /\
  size (fst (subscript t (sv "a"))) <> size t + 1.
Proof.
  split; [|vm_compute; repeat split; discriminate].
  exact (reach_erase _ empty_key
           (reach_clear _ (reach_insert _ (empty_key, 1) (reach_new zero)))).
Qed.

(** ** Instances of the general claims *)

Lemma erase_reports_removal_witness :
  reachable abc_trie /\
  let t' := fst (erase abc_trie (sv "ab")) in
  let erased := snd (erase abc_trie (sv "ab")) in
  (erased = true <-> find abc_trie (sv "ab") <> None) /\
  (erased = true ->
     find t' (sv "ab") = None /\
     size t' = wrap (size abc_trie - 1) /\
     (size_consistent abc_trie -> size t' = size abc_trie - 1 /\ size_consistent t')) /\
  (erased = false -> t' = abc_trie) /\
  erase t' (sv "ab") = (t', false).
Proof.
  split; [exact abc_trie_reachable|].
  exact (erase_reports_removal abc_trie (sv "ab") abc_trie_reachable).
Defined.

Lemma at_throws_exactly_without_value_witness :
  reachable abc_trie /\
  fst (at_ abc_trie (sv "ab")) = abc_trie /\
  (snd (at_ abc_trie (sv "ab")) = inl (out_of_range "Key not found in Trie") <->
     ~ (exists m, node_at (m_root abc_trie) (sv "ab") m) \/
     (exists m, node_at (m_root abc_trie) (sv "ab") m /\ opt_value m = None)) /\
  (forall m v, node_at (m_root abc_trie) (sv "ab") m -> opt_value m = Some v ->
     snd (at_ abc_trie (sv "ab")) = inr v).
Proof.
  split; [exact abc_trie_reachable|].
  exact (at_throws_exactly_without_value abc_trie (sv "ab") abc_trie_reachable).
Defined.

Lemma contains_true_on_every_existing_path_witness :
  reachable empty_trie /\
  (forall key m, node_at (m_root empty_trie) key m -> contains empty_trie key = true) /\
  (forall key m, node_at (m_root empty_trie) key m -> opt_value m = None ->
     contains empty_trie key = true /\ find empty_trie key = None) /\
  (forall key v n, find empty_trie key = Some v ->
     contains empty_trie (firstn n key) = true) /\
  contains empty_trie [] = true.
Proof.
  split; [exact (reach_new zero)|].
  exact (contains_true_on_every_existing_path empty_trie (reach_new zero)).
Defined.

(** * Further properties of the code *)

Section VectorFrames.
Context {A : Type}.
Implicit Types (p : A -> bool) (v : list A) (x y : A) (k : nat).

Lemma find_if_assign_other p v k x x' :
  nth_error v k = Some x -> p x = false -> p x' = false ->
  find_if p (assign_at k x' v) = find_if p v.
Proof.
  revert k. induction v as [|y v IH]; intros [|k]; simpl; try discriminate.
  - intros [= ->] Hx Hx'. rewrite !find_if_cons, Hx, Hx'. reflexivity.
  - intros Hk Hx Hx'. rewrite !find_if_cons, (IH k) by assumption. reflexivity.
Qed.

Lemma find_if_emplace_other p v x' :
  p x' = false -> find_if p (emplace_back v x') = find_if p v.
Proof.
  intros Hx'. unfold emplace_back. induction v as [|y v IH]; simpl.
  - rewrite find_if_cons, Hx'. reflexivity.
  - rewrite !find_if_cons, IH. reflexivity.
Qed.

Lemma find_if_erase_other p v k x :
  nth_error v k = Some x -> p x = false ->
  option_map snd (find_if p (erase_at k v)) = option_map snd (find_if p v).
Proof.
  revert k. induction v as [|y v IH]; intros [|k]; simpl; try discriminate.
  - intros [= ->] Hx. rewrite find_if_cons, Hx.
    now destruct (find_if p v) as [[i z]|].
  - intros Hk Hx. rewrite !find_if_cons. destruct (p y); [reflexivity|].
    specialize (IH k Hk Hx).
    destruct (find_if p (erase_at k v)) as [[i z]|],
             (find_if p v) as [[j w]|]; simpl in *; congruence.
Qed.

Lemma find_if_assign_cases p v k x x' :
  nth_error v k = Some x -> p x' = p x ->
  (find_if p v = Some (k, x) /\ find_if p (assign_at k x' v) = Some (k, x')) \/
  find_if p (assign_at k x' v) = find_if p v.
Proof.
  revert k. induction v as [|y v IH]; intros [|k]; simpl; try discriminate.
  - intros [= ->] Hp. rewrite !find_if_cons, Hp. destruct (p x); auto.
  - intros Hk Hp. rewrite !find_if_cons. destruct (p y); [now right|].
    destruct (IH k Hk Hp) as [[-> ->] | ->]; auto.
Qed.

End VectorFrames.

Section TrieMore.
Context {PrefixEltType : Type} `{EqualityComparable PrefixEltType}.
Context {ValueType : Type} `{DefaultConstructible ValueType}.

Local Abbreviation Node := (@TrieNode PrefixEltType ValueType).
Local Abbreviation trie := (@Trie PrefixEltType ValueType).
Local Abbreviation key_t := (@KeyType PrefixEltType).

Implicit Types (node child m : Node) (children : list Node) (key : key_t)
  (ch : PrefixEltType) (v r : ValueType) (t : trie).

(** Induction over a tree and, with it, over the children vectors. *)
Lemma TrieNode_induction (P : Node -> Prop) :
  (forall ch oc val,
     match oc with Some children => Forall P children | None => True end ->
     P (mkTrieNode ch oc val)) ->
  forall node, P node.
Proof.
  intros Hstep. fix IH 1. intros [ch [children|] val]; apply Hstep; [|exact I].
  induction children as [|x xs IHl]; constructor; [apply IH | exact IHl].
Qed.

Lemma elt_eqb_refl ch : elt_eqb ch ch = true.
Proof. now apply elt_eqb_eq. Qed.

Lemma labelled_other ch ch' child :
  character child = ch -> ch <> ch' -> labelled ch' child = false.
Proof.
  intros Hc Hne. destruct (labelled ch' child) eqn:Hl; [|reflexivity].
  apply labelled_iff in Hl. congruence.
Qed.

(** Lookups below a node only see the element [find_if] returns. *)
Lemma find_node_from_step node ch key :
  find_node_from node (ch :: key) =
  match opt_children node with
  | None => None
  | Some children =>
      match option_map snd (find_if (labelled ch) children) with
      | Some child => find_node_from child key
      | None => None
      end
  end.
Proof.
  simpl. destruct (opt_children node) as [children|]; [|reflexivity].
  now destruct (find_if (labelled ch) children) as [[it child]|].
Qed.

Lemma value_at_step node ch key :
  value_at node (ch :: key) =
  match opt_children node with
  | None => None
  | Some children =>
      match option_map snd (find_if (labelled ch) children) with
      | Some child => value_at child key
      | None => None
      end
  end.
Proof.
  unfold value_at. rewrite find_node_from_step.
  destruct (opt_children node) as [children|]; [|reflexivity].
  now destruct (option_map snd (find_if (labelled ch) children)).
Qed.

(** *** What the creating walk leaves alone *)

Lemma walk_or_create_frame key v : forall node node' r inserted key',
  walk_or_create key v node = (node', r, inserted) ->
  key' <> key ->
  value_at node' key' = value_at node key'.
Proof.
  induction key as [|ch key IH]; intros node node' r inserted key' Hw Hne.
  - simpl in Hw. unfold store_if_absent in Hw.
    destruct key' as [|ch' key']; [congruence|].
    destruct (opt_value node); injection Hw as <- _ _; reflexivity.
  - simpl in Hw.
    destruct (find_if (labelled ch)
                match opt_children node with None => [] | Some c => c end)
      as [[it child]|] eqn:Hf.
    + destruct (opt_children node) as [children|] eqn:Hc; [|discriminate].
      destruct (walk_or_create key v child) as [[child' r'] ins'] eqn:Hrec.
      injection Hw as <- _ _.
      destruct key' as [|ch' key']; [reflexivity|].
      destruct (walk_or_create_spec _ _ _ _ _ _ Hrec) as (Hch & _).
      pose proof Hf as Hfm. apply find_if_first_match in Hfm.
      destruct (first_match_nth _ _ _ _ Hfm) as [Hnth Hlab].
      apply labelled_iff in Hlab.
      destruct (elt_eqb ch ch') eqn:Hcmp.
      * apply elt_eqb_eq in Hcmp. subst ch'.
        rewrite (value_at_cons _ _ _ _ _ _ Hc Hf).
        rewrite (value_at_cons (set_children node _) ch key' _ it child' eq_refl).
        -- apply (IH _ _ _ _ _ Hrec). congruence.
        -- apply find_if_first_match. apply first_match_assign with (x := child); auto.
           apply labelled_iff. congruence.
      * assert (Hne' : ch <> ch').
        { intros ->. rewrite elt_eqb_refl in Hcmp. discriminate. }
        rewrite !value_at_step. simpl. rewrite Hc.
        rewrite (find_if_assign_other _ _ _ child child'); auto.
        -- now apply labelled_other with (ch := ch).
        -- apply labelled_other with (ch := ch); congruence.
    + destruct (walk_or_create key v (TrieNode_new ch)) as [[child' r'] ins'] eqn:Hrec.
      injection Hw as <- _ _.
      destruct key' as [|ch' key']; [reflexivity|].
      destruct (walk_or_create_spec _ _ _ _ _ _ Hrec) as (Hch & _). simpl in Hch.
      destruct (elt_eqb ch ch') eqn:Hcmp.
      * apply elt_eqb_eq in Hcmp. subst ch'.
        assert (Hold : value_at node (ch :: key') = None).
        { destruct (opt_children node) as [children|] eqn:Hc.
          - now apply value_at_no_child with (children := children).
          - now apply value_at_no_children. }
        rewrite Hold.
        rewrite (value_at_cons (set_children node _) ch key' _
                   (List.length match opt_children node with None => [] | Some c => c end)
                   child' eq_refl).
        -- rewrite (IH _ _ _ _ key' Hrec) by congruence. apply value_at_new.
        -- apply find_if_first_match. apply first_match_emplace_back.
           ++ now apply find_if_none.
           ++ now apply labelled_iff.
      * assert (Hne' : ch <> ch').
        { intros ->. rewrite elt_eqb_refl in Hcmp. discriminate. }
        rewrite !value_at_step. simpl.
        rewrite find_if_emplace_other by (now apply labelled_other with (ch := ch)).
        now destruct (opt_children node).
Qed.

(** *** What the erasing descent leaves alone *)

Lemma value_at_dead child key :
  opt_children child = Some [] -> opt_value child = None -> value_at child key = None.
Proof.
  intros Hc Hv. destruct key as [|ch key]; unfold value_at; simpl.
  - assumption.
  - now rewrite Hc.
Qed.

Lemma find_if_pruned children ch it child :
  NoDup (map character children) ->
  first_match (labelled ch) children it child ->
  find_if (labelled ch) (erase_at it children) = None.
Proof.
  intros Hnd Hfm. destruct (first_match_nth _ _ _ _ Hfm) as [Hnth Hlab].
  apply labelled_iff in Hlab.
  apply find_if_none. intros c Hc0.
  destruct (labelled ch c) eqn:Hl; [exfalso|reflexivity].
  apply labelled_iff in Hl.
  apply (NoDup_erase_at_fresh (map character children) it ch Hnd).
  - rewrite nth_error_map, Hnth. simpl. now rewrite Hlab.
  - rewrite <- erase_at_map. rewrite <- Hl. now apply in_map.
Qed.

Lemma erase_recursive_frame key : forall node sz erased node' sz' key',
  unique_labels node ->
  erase_recursive node key sz = (erased, node', sz') ->
  key' <> key ->
  value_at node' key' = value_at node key'.
Proof.
  induction key as [|ch key IH]; intros node sz erased node' sz' key' Hu He Hne.
  - simpl in He. destruct key' as [|ch' key']; [congruence|].
    destruct (opt_value node); injection He as _ <- _; reflexivity.
  - destruct erased.
    2:{ destruct (erase_recursive_spec _ _ _ _ _ _ He) as (_ & _ & Hsame & _).
        now destruct (Hsame eq_refl) as [-> _]. }
    simpl in He.
    destruct (opt_children node) as [children|] eqn:Hc; [|discriminate].
    destruct (find_if (labelled ch) children) as [[it child]|] eqn:Hf; [|discriminate].
    pose proof Hf as Hfm. apply find_if_first_match in Hfm.
    destruct (first_match_nth _ _ _ _ Hfm) as [Hnth Hlab].
    apply labelled_iff in Hlab.
    pose proof (first_match_In _ _ _ _ Hfm) as Hin.
    destruct (erase_recursive child key sz) as [[e child'] s'] eqn:Hrec.
    destruct e; [|discriminate].
    destruct (erase_recursive_spec _ _ _ _ _ _ Hrec) as (Hch & _).
    pose proof (unique_labels_child _ _ _ Hu Hc Hin) as Huc.
    apply unique_labels_eq in Hu as Hu'. rewrite Hc in Hu'. destruct Hu' as [Hnd _].
    destruct key' as [|ch' key'].
    { destruct (opt_children child') as [[|c cs]|];
        [destruct (opt_value child')| |]; injection He as <- _; reflexivity. }
    assert (Hassign : find_if (labelled ch) (assign_at it child' children)
                      = Some (it, child')).
    { apply find_if_first_match. apply first_match_assign with (x := child); auto.
      apply labelled_iff. congruence. }
    destruct (elt_eqb ch ch') eqn:Hcmp.
    + apply elt_eqb_eq in Hcmp. subst ch'.
      assert (Hne' : key' <> key) by congruence.
      pose proof (IH _ _ _ _ _ key' Huc Hrec Hne') as Hsub.
      rewrite (value_at_cons _ _ _ _ _ _ Hc Hf), <- Hsub.
      destruct (opt_children child') as [[|c cs]|] eqn:Hc';
        [destruct (opt_value child') as [val|] eqn:Hv'| |];
        injection He as <- _;
        try (now apply value_at_cons with (children := assign_at it child' children)
                                          (it := it)).
      rewrite (value_at_dead _ _ Hc' Hv').
      apply value_at_no_child with (children := erase_at it (assign_at it child' children));
        [reflexivity|].
      rewrite erase_at_assign_at. now apply find_if_pruned with (child := child).
    + assert (Hne' : ch <> ch').
      { intros ->. rewrite elt_eqb_refl in Hcmp. discriminate. }
      assert (Hold : labelled ch' child = false)
        by (now apply labelled_other with (ch := ch)).
      assert (Hnew : labelled ch' child' = false)
        by (apply labelled_other with (ch := ch); congruence).
      rewrite (value_at_step node), Hc.
      destruct (opt_children child') as [[|c cs]|] eqn:Hc';
        [destruct (opt_value child') as [val|] eqn:Hv'| |];
        injection He as <- _; rewrite value_at_step; simpl;
        try (now rewrite (find_if_assign_other _ _ _ child child')).
      rewrite erase_at_assign_at.
      now rewrite (find_if_erase_other _ _ _ child).
Qed.

(** *** What a write through a reference changes *)

Lemma write_from_frame key v : forall node key',
  key' <> key -> value_at (write_from key v node) key' = value_at node key'.
Proof.
  induction key as [|ch key IH]; intros node key' Hne; simpl.
  - destruct key' as [|ch' key']; [congruence|].
    destruct (opt_value node); reflexivity.
  - destruct (opt_children node) as [children|] eqn:Hc; [|reflexivity].
    destruct (find_if (labelled ch) children) as [[it child]|] eqn:Hf; [|reflexivity].
    destruct key' as [|ch' key']; [reflexivity|].
    pose proof Hf as Hfm. apply find_if_first_match in Hfm.
    destruct (first_match_nth _ _ _ _ Hfm) as [Hnth Hlab].
    apply labelled_iff in Hlab.
    destruct (elt_eqb ch ch') eqn:Hcmp.
    + apply elt_eqb_eq in Hcmp. subst ch'.
      rewrite (value_at_cons _ _ _ _ _ _ Hc Hf).
      rewrite (value_at_cons (set_children node _) ch key' _ it
                 (write_from key v child) eq_refl).
      * apply IH. congruence.
      * apply find_if_first_match. apply first_match_assign with (x := child); auto.
        apply labelled_iff. now rewrite write_from_character.
    + assert (Hne' : ch <> ch').
      { intros ->. rewrite elt_eqb_refl in Hcmp. discriminate. }
      rewrite !value_at_step. simpl. rewrite Hc.
      rewrite (find_if_assign_other _ _ _ child (write_from key v child)); auto.
      * now apply labelled_other with (ch := ch).
      * apply labelled_other with (ch := ch); [|assumption].
        now rewrite write_from_character.
Qed.

Lemma write_from_absent key v : forall node,
  value_at node key = None -> write_from key v node = node.
Proof.
  induction key as [|ch key IH]; intros node Hv; simpl.
  - unfold value_at in Hv. simpl in Hv. now rewrite Hv.
  - destruct (opt_children node) as [children|] eqn:Hc; [|reflexivity].
    destruct (find_if (labelled ch) children) as [[it child]|] eqn:Hf; [|reflexivity].
    rewrite (value_at_cons _ _ _ _ _ _ Hc Hf) in Hv.
    apply find_if_first_match in Hf.
    destruct (first_match_nth _ _ _ _ Hf) as [Hnth _].
    rewrite (IH _ Hv), assign_at_same by assumption.
    now apply set_children_same.
Qed.

(** *** Paths that stay *)

(** A node keeps its paths when one child is replaced by a child with the
    same label that keeps its own. *)
Lemma paths_assign node children it child child' key m :
  opt_children node = Some children ->
  nth_error children it = Some child ->
  character child' = character child ->
  (forall k n, find_node_from child k = Some n ->
     exists n', find_node_from child' k = Some n') ->
  find_node_from node key = Some m ->
  exists m',
    find_node_from (set_children node (Some (assign_at it child' children))) key
    = Some m'.
Proof.
  intros Hc Hnth Hch Hsub Hf. destruct key as [|ch key]; [simpl; eauto|].
  simpl in Hf. rewrite Hc in Hf. simpl.
  assert (Hp : labelled ch child' = labelled ch child)
    by (unfold labelled; now rewrite Hch).
  destruct (find_if_assign_cases (labelled ch) _ _ _ _ Hnth Hp) as [[Hold Hnew]|Hsame].
  - rewrite Hold in Hf. rewrite Hnew. eauto.
  - rewrite Hsame. destruct (find_if (labelled ch) children) as [[i c]|]; eauto.
Qed.

Lemma paths_set_value node val key m :
  find_node_from node key = Some m ->
  exists m', find_node_from (set_value node val) key = Some m'.
Proof. destruct key; simpl; eauto. Qed.

Lemma walk_or_create_keeps_paths key v : forall node node' r inserted key' m,
  walk_or_create key v node = (node', r, inserted) ->
  find_node_from node key' = Some m ->
  exists m', find_node_from node' key' = Some m'.
Proof.
  induction key as [|ch key IH]; intros node node' r inserted key' m Hw Hf.
  - simpl in Hw. unfold store_if_absent in Hw.
    destruct (opt_value node); injection Hw as <- _ _; eauto using paths_set_value.
  - simpl in Hw.
    destruct (find_if (labelled ch)
                match opt_children node with None => [] | Some c => c end)
      as [[it child]|] eqn:Hfi.
    + destruct (opt_children node) as [children|] eqn:Hc; [|discriminate].
      destruct (walk_or_create key v child) as [[child' r'] ins'] eqn:Hrec.
      injection Hw as <- _ _.
      destruct (walk_or_create_spec _ _ _ _ _ _ Hrec) as (Hch & _).
      apply find_if_first_match in Hfi.
      destruct (first_match_nth _ _ _ _ Hfi) as [Hnth _].
      eapply paths_assign; eauto.
    + destruct (walk_or_create key v (TrieNode_new ch)) as [[child' r'] ins'] eqn:Hrec.
      injection Hw as <- _ _.
      destruct (walk_or_create_spec _ _ _ _ _ _ Hrec) as (Hch & _). simpl in Hch.
      destruct key' as [|ch' key']; [simpl; eauto|].
      rewrite find_node_from_step in Hf. rewrite find_node_from_step. simpl.
      destruct (labelled ch' child') eqn:Hl.
      * apply labelled_iff in Hl. assert (ch' = ch) as -> by congruence.
        destruct (opt_children node) as [children|]; [|discriminate].
        rewrite Hfi in Hf. discriminate.
      * rewrite find_if_emplace_other by assumption.
        destruct (opt_children node) as [children|]; [|discriminate]. eauto.
Qed.

Lemma erase_recursive_keeps_paths key : forall node sz erased node' sz' key' m,
  never_empty node ->
  erase_recursive node key sz = (erased, node', sz') ->
  find_node_from node key' = Some m ->
  exists m', find_node_from node' key' = Some m'.
Proof.
  induction key as [|ch key IH]; intros node sz erased node' sz' key' m Hn He Hf.
  - simpl in He. destruct (opt_value node); injection He as _ <- _;
      eauto using paths_set_value.
  - simpl in He.
    destruct (opt_children node) as [children|] eqn:Hc;
      [|injection He as _ <- _; eauto].
    destruct (find_if (labelled ch) children) as [[it child]|] eqn:Hfi;
      [|injection He as _ <- _; eauto].
    apply find_if_first_match in Hfi.
    destruct (first_match_nth _ _ _ _ Hfi) as [Hnth _].
    pose proof (never_empty_child _ _ _ Hn Hc (first_match_In _ _ _ _ Hfi)) as Hnc.
    destruct (erase_recursive child key sz) as [[e child'] s'] eqn:Hrec.
    destruct (erase_recursive_spec _ _ _ _ _ _ Hrec) as (Hch & _).
    destruct (erase_recursive_never_prunes _ _ _ _ _ _ Hnc Hrec) as [Hn' _].
    assert (Hkeep : exists m',
               find_node_from (set_children node (Some (assign_at it child' children)))
                 key' = Some m')
      by (eapply paths_assign; eauto).
    destruct e; [|injection He as _ <- _; assumption].
    destruct (opt_children child') as [[|c cs]|] eqn:Hc';
      [destruct (opt_value child')| |]; injection He as _ <- _; try assumption.
    exfalso. apply never_empty_eq in Hn'. rewrite Hc' in Hn'. now destruct Hn'.
Qed.

Lemma write_from_keeps_paths key v : forall node key' m,
  find_node_from node key' = Some m ->
  exists m', find_node_from (write_from key v node) key' = Some m'.
Proof.
  induction key as [|ch key IH]; intros node key' m Hf; simpl.
  - destruct (opt_value node); eauto using paths_set_value.
  - destruct (opt_children node) as [children|] eqn:Hc; [|eauto].
    destruct (find_if (labelled ch) children) as [[it child]|] eqn:Hfi; [|eauto].
    apply find_if_first_match in Hfi.
    destruct (first_match_nth _ _ _ _ Hfi) as [Hnth _].
    eapply paths_assign; eauto using write_from_character.
Qed.

(** *** The count stays a [std::size_t] *)

Lemma wrap_range z : 0 <= wrap z <= SIZE_MAX.
Proof.
  unfold wrap, SIZE_MAX.
  assert (0 < SIZE_MODULUS) by now vm_compute.
  pose proof (Z.mod_pos_bound z SIZE_MODULUS). lia.
Qed.

Lemma reachable_size_range t : reachable t -> 0 <= m_size t <= SIZE_MAX.
Proof.
  induction 1 as [s|t key Hr IH|t [key v] Hr IH|t key Hr IH|t key Hr IH|t Hr IH
                  |t key v Hr IH].
  - now vm_compute.
  - unfold subscript, find_or_insert.
    destruct (walk_or_create key default_value (m_root t)) as [[root' r] [|]];
      cbn [fst m_size]; [apply wrap_range | assumption].
  - unfold insert. cbn [fst snd].
    destruct (walk_or_create key v (m_root t)) as [[root' r] [|]];
      cbn [fst m_size]; [apply wrap_range | assumption].
  - unfold at_. destruct (find_node t key) as [m|]; [destruct (opt_value m)|];
      assumption.
  - unfold erase.
    destruct (erase_recursive (m_root t) key (m_size t)) as [[e root'] sz'] eqn:He.
    destruct (erase_recursive_spec _ _ _ _ _ _ He) as (_ & _ & Hsame & Hgone).
    cbn [fst m_size]. destruct e.
    + destruct (Hgone eq_refl) as [-> _]. apply wrap_range.
    + now destruct (Hsame eq_refl) as [_ ->].
  - now vm_compute.
  - assumption.
Qed.

Lemma wrap_add_l a b : wrap (wrap a + b) = wrap (a + b).
Proof. unfold wrap. apply Zplus_mod_idemp_l. Qed.

Lemma count_nodes_eq node :
  count_nodes node =
  S match opt_children node with
    | None => 0
    | Some children => list_sum (map count_nodes children)
    end.
Proof. now destruct node. Qed.

Lemma matched_depth_new ch key : matched_depth (TrieNode_new ch : Node) key = 0%nat.
Proof. now destruct key. Qed.

Lemma matched_depth_le key : forall node, (matched_depth node key <= List.length key)%nat.
Proof.
  induction key as [|ch key IH]; intros node; simpl; [lia|].
  destruct (opt_children node) as [children|]; [|lia].
  destruct (find_if (labelled ch) children) as [[it child]|]; [|lia].
  specialize (IH child). lia.
Qed.

Lemma walk_or_create_new_nodes key v : forall node node' r inserted,
  walk_or_create key v node = (node', r, inserted) ->
  count_nodes node' =
  (count_nodes node + (List.length key - matched_depth node key))%nat.
Proof.
  induction key as [|ch key IH]; intros node node' r inserted Hw.
  - simpl in Hw. unfold store_if_absent in Hw.
    destruct (opt_value node); injection Hw as <- _ _; [simpl; lia|].
    destruct node; simpl; lia.
  - simpl in Hw. rewrite (count_nodes_eq node). simpl matched_depth.
    destruct (find_if (labelled ch)
                match opt_children node with None => [] | Some c => c end)
      as [[it child]|] eqn:Hf.
    + destruct (opt_children node) as [children|] eqn:Hc; [|discriminate].
      rewrite Hf.
      apply find_if_first_match in Hf.
      destruct (first_match_nth _ _ _ _ Hf) as [Hnth _].
      destruct (walk_or_create key v child) as [[child' r'] ins'] eqn:Hrec.
      injection Hw as <- _ _. specialize (IH _ _ _ _ Hrec).
      rewrite count_nodes_eq. simpl.
      pose proof (list_sum_assign_at count_nodes _ _ _ child' Hnth).
      pose proof (matched_depth_le key child). lia.
    + destruct (walk_or_create key v (TrieNode_new ch)) as [[child' r'] ins'] eqn:Hrec.
      injection Hw as <- _ _. specialize (IH _ _ _ _ Hrec).
      rewrite matched_depth_new in IH. simpl in IH.
      rewrite count_nodes_eq. simpl. unfold emplace_back.
      rewrite map_app, list_sum_app. simpl.
      destruct (opt_children node) as [children|]; [rewrite Hf|]; simpl; lia.
Qed.

(** ** Properties of the members *)

(** X1: [insert] and [operator[]] at one key leave what [find] returns at
    every other key as it was. *)
Theorem insert_leaves_other_keys t key v key' :
  key' <> key ->
  find (fst (insert t (key, v))) key' = find t key' /\
  find (fst (subscript t key)) key' = find t key'.
Proof.
  intros Hne. unfold insert, subscript, find_or_insert. cbn [fst snd].
  destruct (walk_or_create key v (m_root t)) as [[root1 r1] ins1] eqn:Hw1.
  destruct (walk_or_create key default_value (m_root t)) as [[root2 r2] ins2] eqn:Hw2.
  cbn [fst]. rewrite !find_value_at. cbn [m_root]. split.
  - eapply walk_or_create_frame; eauto.
  - eapply walk_or_create_frame; eauto.
Qed.

(** X2: in every reachable state, [erase] at one key leaves what [find]
    returns at every other key as it was; in particular it keeps the keys
    that extend the erased one and the keys it extends. *)
Theorem erase_leaves_other_keys t key key' :
  reachable t ->
  key' <> key ->
  find (fst (erase t key)) key' = find t key'.
Proof.
  intros Hr Hne. unfold erase.
  destruct (erase_recursive (m_root t) key (m_size t)) as [[e root'] sz'] eqn:He.
  cbn [fst]. rewrite !find_value_at. cbn [m_root].
  eapply erase_recursive_frame; eauto using reachable_unique_labels.
Qed.

Lemma subscript_facts t key :
  value_at (m_root (fst (subscript t key))) key = Some (snd (subscript t key)) /\
  (forall old, value_at (m_root t) key = Some old -> subscript t key = (t, old)) /\
  (forall key', key' <> key ->
     value_at (m_root (fst (subscript t key))) key' = value_at (m_root t) key').
Proof.
  unfold subscript, find_or_insert.
  destruct (walk_or_create key default_value (m_root t)) as [[root' r] ins] eqn:Hw.
  destruct (walk_or_create_spec _ _ _ _ _ _ Hw) as (_ & Hval & _ & Hold).
  cbn [fst snd m_root]. split; [exact Hval|]. split.
  - intros old Hv. destruct (Hold old Hv) as (-> & -> & ->). now destruct t.
  - intros key' Hne. eapply walk_or_create_frame; eauto.
Qed.

(** X3: the sample program's sequence [trie[key] = v; ... trie[key]] reads
    back [v]; the second subscript changes nothing, [find(key)] yields [v]
    afterwards, and no other key is affected. *)
Theorem sample_main_reads_back t key v :
  snd (sample_main t key v) = v /\
  fst (sample_main t key v) = write (fst (subscript t key)) key v /\
  find (fst (sample_main t key v)) key = Some v /\
  (forall key', key' <> key -> find (fst (sample_main t key v)) key' = find t key').
Proof.
  unfold sample_main.
  destruct (subscript_facts t key) as (Hval1 & _ & Hframe1).
  set (t1 := fst (subscript t key)) in *.
  assert (Hval2 : value_at (m_root (write t1 key v)) key = Some v).
  { cbn [write m_root]. eapply write_from_value_at; eauto. }
  destruct (subscript_facts (write t1 key v) key) as (_ & Hold2 & _).
  rewrite (Hold2 v Hval2). cbn [fst snd].
  split; [reflexivity|]. split; [reflexivity|].
  rewrite find_value_at. split; [exact Hval2|].
  intros key' Hne. rewrite !find_value_at. cbn [write m_root].
  rewrite write_from_frame by assumption. now apply Hframe1.
Qed.

(** X4: in every reachable state [size()] is the number of stored values or
    one less, modulo 2^64. *)
Theorem size_off_by_at_most_one t :
  reachable t ->
  exists d, (d = 0 \/ d = 1) /\
            size t = wrap (Z.of_nat (count_values (m_root t)) - d).
Proof.
  unfold size.
  induction 1 as [s|t key Hr IH|t [key v] Hr IH|t key Hr IH|t key Hr IH|t Hr IH
                  |t key v Hr IH].
  - exists 0. split; [now left | reflexivity].
  - destruct IH as (d & Hd & IH). exists d. split; [assumption|].
    unfold subscript, find_or_insert.
    destruct (walk_or_create key default_value (m_root t)) as [[root' r] ins] eqn:Hw.
    pose proof (walk_or_create_count _ _ _ _ _ _ Hw) as Hc.
    cbn [fst m_root m_size]. rewrite Hc, IH. destruct ins.
    + rewrite wrap_add_l. f_equal. lia.
    + f_equal. lia.
  - destruct IH as (d & Hd & IH). exists d. split; [assumption|].
    unfold insert. cbn [fst snd].
    destruct (walk_or_create key v (m_root t)) as [[root' r] ins] eqn:Hw.
    pose proof (walk_or_create_count _ _ _ _ _ _ Hw) as Hc.
    cbn [fst m_root m_size]. rewrite Hc, IH. destruct ins.
    + rewrite wrap_add_l. f_equal. lia.
    + f_equal. lia.
  - unfold at_. destruct (find_node t key) as [m|]; [destruct (opt_value m)|];
      assumption.
  - destruct IH as (d & Hd & IH). exists d. split; [assumption|].
    unfold erase.
    destruct (erase_recursive (m_root t) key (m_size t)) as [[e root'] sz'] eqn:He.
    destruct (erase_recursive_spec _ _ _ _ _ _ He) as (_ & _ & Hsame & Hgone).
    cbn [fst m_root m_size]. destruct e.
    + destruct (Hgone eq_refl) as [-> Hcnt]. rewrite IH.
      replace (wrap (Z.of_nat (count_values (m_root t)) - d) - 1)
        with (wrap (Z.of_nat (count_values (m_root t)) - d) + -1) by lia.
      rewrite wrap_add_l. f_equal. lia.
    + now destruct (Hsame eq_refl) as [-> ->].
  - cbn [clear m_root m_size]. rewrite count_values_eq. simpl.
    destruct (opt_value (m_root t)).
    + exists 1. split; [now right | reflexivity].
    + exists 0. split; [now left | reflexivity].
  - destruct IH as (d & Hd & IH). exists d. split; [assumption|].
    cbn [write m_root m_size]. now rewrite write_from_count.
Qed.

(** X5: a count that agrees with the stored values keeps agreeing under
    [insert], [operator[]], [erase] and writes through references, as long as
    it can still be incremented; under [clear()] it does when the root holds
    no value. *)
Theorem size_consistent_preserved t :
  size_consistent t ->
  m_size t < SIZE_MAX ->
  (forall kv, size_consistent (fst (insert t kv))) /\
  (forall key, size_consistent (fst (subscript t key))) /\
  (forall key, size_consistent (fst (erase t key))) /\
  (forall key v, size_consistent (write t key v)) /\
  (opt_value (m_root t) = None -> size_consistent (clear t)).
Proof.
  intros Hs Hroom.
  split; [intros kv; now apply insert_size_consistent|].
  split; [intros key; now apply subscript_size_consistent|].
  split; [intros key; now apply erase_size_consistent|].
  split; [intros key v; now apply write_size_consistent|].
  apply clear_size_consistent.
Qed.

(** X6: in every reachable state [find_node(key)] returns a node exactly
    when a chain of children labelled with the elements of [key] leads to it
    from the root; so a key names at most one node. *)
Theorem find_node_follows_the_path t :
  reachable t ->
  forall key m, find_node t key = Some m <-> node_at (m_root t) key m.
Proof.
  intros Hr key m. unfold find_node. split.
  - apply find_node_from_node_at.
  - apply node_at_find_node_from. now apply reachable_unique_labels.
Qed.

(** X7: a key [contains] accepts stays accepted under [insert],
    [operator[]], [erase] and writes through references: in a reachable state
    none of them removes a node. *)
Theorem paths_are_never_removed t key :
  reachable t ->
  contains t key = true ->
  (forall kv, contains (fst (insert t kv)) key = true) /\
  (forall k, contains (fst (subscript t k)) key = true) /\
  (forall k, contains (fst (erase t k)) key = true) /\
  (forall k v, contains (write t k v) key = true).
Proof.
  intros Hr Hc. apply contains_find_node in Hc. destruct Hc as [m Hm].
  split; [|split; [|split]].
  - intros [k v]. apply contains_find_node. unfold insert. cbn [fst snd].
    destruct (walk_or_create k v (m_root t)) as [[root' r] ins] eqn:Hw.
    cbn [fst m_root]. eapply walk_or_create_keeps_paths; eauto.
  - intros k. apply contains_find_node. unfold subscript, find_or_insert.
    destruct (walk_or_create k default_value (m_root t)) as [[root' r] ins] eqn:Hw.
    cbn [fst m_root]. eapply walk_or_create_keeps_paths; eauto.
  - intros k. apply contains_find_node. unfold erase.
    destruct (erase_recursive (m_root t) k (m_size t)) as [[e root'] sz'] eqn:He.
    cbn [fst m_root].
    eapply erase_recursive_keeps_paths; eauto using reachable_never_empty.
  - intros k v. apply contains_find_node. cbn [write m_root].
    eapply write_from_keeps_paths; eauto.
Qed.

Lemma key_eq_dec key key' : {key = key'} + {key <> key'}.
Proof.
  apply list_eq_dec. intros a b. destruct (elt_eqb a b) eqn:Hab.
  - left. now apply elt_eqb_eq.
  - right. intros ->. rewrite elt_eqb_refl in Hab. discriminate.
Qed.

Lemma insert_facts t key v :
  value_at (m_root (fst (insert t (key, v)))) key = Some (fst (snd (insert t (key, v)))) /\
  (value_at (m_root t) key = None ->
     snd (snd (insert t (key, v))) = true /\
     fst (snd (insert t (key, v))) = v /\
     m_size (fst (insert t (key, v))) = wrap (m_size t + 1)) /\
  (forall key', key' <> key ->
     value_at (m_root (fst (insert t (key, v)))) key' = value_at (m_root t) key').
Proof.
  unfold insert. cbn [fst snd].
  destruct (walk_or_create key v (m_root t)) as [[root' r] ins] eqn:Hw.
  destruct (walk_or_create_spec _ _ _ _ _ _ Hw) as (_ & Hval & Hnew & _).
  cbn [fst snd m_root m_size]. split; [exact Hval|]. split.
  - intros Hv. destruct (Hnew Hv) as [-> ->]. repeat split.
  - intros key' Hne. eapply walk_or_create_frame; eauto.
Qed.

(** X8: in a reachable state, inserting at a key that stores nothing and
    erasing it again is invisible to [find] and to [size()]: the erase
    succeeds, every key yields what it yielded before, and the count is back.
    The nodes the insert created stay. *)
Theorem insert_then_erase_is_invisible t key v :
  reachable t ->
  find t key = None ->
  let t1 := fst (insert t (key, v)) in
  let t2 := fst (erase t1 key) in
  snd (erase t1 key) = true /\
  (forall key', find t2 key' = find t key') /\
  size t2 = size t /\
  count_nodes (m_root t2) =
    (count_nodes (m_root t) + (List.length key - matched_depth (m_root t) key))%nat.
Proof.
  intros Hr Hnone t1 t2. rewrite find_value_at in Hnone.
  assert (Hr1 : reachable t1) by (apply reach_insert; assumption).
  destruct (insert_facts t key v) as (Hval & Hnew & Hframe).
  destruct (Hnew Hnone) as (_ & Hv & Hsz). fold t1 in Hval, Hsz, Hframe.
  rewrite Hv in Hval.
  assert (Hnodes : count_nodes (m_root t2) = count_nodes (m_root t1))
    by (apply erase_never_prunes; assumption).
  assert (Hgrow : count_nodes (m_root t1) =
            (count_nodes (m_root t) + (List.length key - matched_depth (m_root t) key))%nat).
  { unfold t1, insert. cbn [fst snd].
    destruct (walk_or_create key v (m_root t)) as [[root' r] ins] eqn:Hw.
    cbn [fst m_root]. eapply walk_or_create_new_nodes; eauto. }
  pose proof (reachable_unique_labels _ Hr1) as Hu1.
  pose proof (reachable_size_range _ Hr) as Hrange.
  unfold t2, erase, size in *.
  destruct (erase_recursive (m_root t1) key (m_size t1)) as [[e root2] sz2] eqn:He.
  destruct (erase_recursive_spec _ _ _ _ _ _ He) as (_ & Hiff & _ & Hgone).
  cbn [fst snd m_root m_size] in *.
  assert (e = true) as -> by (apply Hiff; congruence).
  destruct (Hgone eq_refl) as [-> _].
  split; [reflexivity|]. split; [|split].
  - intros key'. rewrite !find_value_at. cbn [m_root].
    destruct (key_eq_dec key' key) as [->|Hne].
    + rewrite Hnone. eapply erase_recursive_gone; eauto.
    + rewrite <- (Hframe key' Hne). eapply erase_recursive_frame; eauto.
  - rewrite Hsz.
    replace (wrap (m_size t + 1) - 1) with (wrap (m_size t + 1) + -1) by lia.
    rewrite wrap_add_l. replace (m_size t + 1 + -1) with (m_size t) by lia.
    now apply wrap_small.
  - congruence.
Qed.

(** X13: [clear()] sets the size to 0 and forgets every key but the empty
    one: what [find] yields at the empty key survives.  The trie is back to
    its freshly constructed state, and its count right, exactly when nothing
    was stored there. *)
Theorem clear_forgets_all_but_the_empty_key t :
  size (clear t) = 0 /\
  (forall ch key,
     find (clear t) (ch :: key) = None /\ contains (clear t) (ch :: key) = false) /\
  find (clear t) [] = find t [] /\
  (clear t = Trie_new (character (m_root t)) <-> find t [] = None) /\
  (size_consistent (clear t) <-> find t [] = None).
Proof.
  split; [reflexivity|]. split; [now split|]. split; [reflexivity|].
  unfold clear, Trie_new, TrieNode_new, set_children, size_consistent.
  rewrite find_value_at. unfold value_at. cbn.
  destruct (opt_value (m_root t)) as [val|].
  - split; split; try discriminate.
    intros [Hcount _]. simpl in Hcount. lia.
  - split; split; try reflexivity. intros _. now vm_compute.
Qed.

Lemma matched_depth_full key : forall node,
  (exists m, find_node_from node key = Some m) <->
  matched_depth node key = List.length key.
Proof.
  induction key as [|ch key IH]; intros node; simpl.
  - split; eauto.
  - destruct (opt_children node) as [children|];
      [|split; [intros [m [=]] | discriminate]].
    destruct (find_if (labelled ch) children) as [[it child]|];
      [|split; [intros [m [=]] | discriminate]].
    rewrite IH. split; [congruence | now intros [=]].
Qed.

(** X14: [insert] and [operator[]] create one node for each element of the
    key beyond the part whose nodes exist already, and none when [contains]
    accepts the key. *)
Theorem walk_creates_one_node_per_missing_element t key v :
  count_nodes (m_root (fst (insert t (key, v)))) =
    (count_nodes (m_root t) + (List.length key - matched_depth (m_root t) key))%nat /\
  count_nodes (m_root (fst (subscript t key))) =
    (count_nodes (m_root t) + (List.length key - matched_depth (m_root t) key))%nat /\
  (contains t key = true <-> matched_depth (m_root t) key = List.length key).
Proof.
  split; [|split].
  - unfold insert. cbn [fst snd].
    destruct (walk_or_create key v (m_root t)) as [[root' r] ins] eqn:Hw.
    cbn [fst m_root]. eapply walk_or_create_new_nodes; eauto.
  - unfold subscript, find_or_insert.
    destruct (walk_or_create key default_value (m_root t)) as [[root' r] ins] eqn:Hw.
    cbn [fst m_root]. eapply walk_or_create_new_nodes; eauto.
  - rewrite contains_find_node. apply matched_depth_full.
Qed.

(** X15: in every reachable state [erase] removes no node: the tree has as
    many nodes after it as before, whatever it returns, and after a
    successful [erase(k)] the node of [k] is still there, without a value. *)
Theorem erase_removes_no_node t key :
  reachable t ->
  count_nodes (m_root (fst (erase t key))) = count_nodes (m_root t) /\
  (snd (erase t key) = true ->
   exists m, find_node (fst (erase t key)) key = Some m /\ opt_value m = None).
Proof.
  intros Hr. split; [now apply erase_never_prunes|].
  pose proof (reachable_unique_labels t Hr) as Hu.
  pose proof (reachable_never_empty t Hr) as Hn.
  unfold erase, find_node.
  destruct (erase_recursive (m_root t) key (m_size t)) as [[e root'] sz'] eqn:He.
  cbn [fst snd m_root]. intros ->.
  destruct (erase_recursive_spec _ _ _ _ _ _ He) as (_ & Hiff & _).
  destruct (value_at (m_root t) key) as [old|] eqn:Hv;
    [|exfalso; now apply (proj1 Hiff eq_refl)].
  destruct (value_at_found _ _ _ Hv) as [m0 Hm0].
  destruct (erase_recursive_keeps_paths _ _ _ _ _ _ _ _ Hn He Hm0) as [m' Hm'].
  exists m'. split; [exact Hm'|].
  pose proof (erase_recursive_gone _ _ _ _ _ Hu He) as Hgone.
  unfold value_at in Hgone. now rewrite Hm' in Hgone.
Qed.

(** ** The cursor against the pre-order listing *)

Lemma preorder_eq (prefix : key_t) node :
  preorder prefix node =
  (match opt_value node with Some v => [(prefix, v)] | None => [] end) ++
  match opt_children node with
  | None => []
  | Some children =>
      flat_map (fun c => preorder (prefix ++ [character c]) c) children
  end.
Proof. now destruct node. Qed.

Lemma pending_cons node (prefix : key_t) (st : list (Node * key_t)) :
  pending ((node, prefix) :: st) = preorder prefix node ++ pending st.
Proof. reflexivity. Qed.

Lemma pending_push children (prefix : key_t) (st : list (Node * key_t)) :
  pending (push_children children prefix st) =
  flat_map (fun c => preorder (prefix ++ [character c]) c) children ++ pending st.
Proof.
  rewrite push_children_eq. unfold pending. rewrite flat_map_app. f_equal.
  induction children as [|c cs IH]; simpl; [reflexivity|]. now rewrite IH.
Qed.

Lemma advance_loop_next fuel : forall (st : list (Node * key_t)) cur,
  (stack_nodes st < fuel)%nat ->
  match pending st with
  | [] => advance_loop fuel st cur = Some (mkIterator [] cur)
  | e :: rest =>
      exists st', advance_loop fuel st cur = Some (mkIterator st' e) /\
                  pending st' = rest
  end.
Proof.
  induction fuel as [|fuel IH]; intros st cur Hlt; [lia|].
  destruct st as [|[node prefix] st]; [reflexivity|].
  assert (Hnode : stack_nodes ((node, prefix) :: st) =
                  (count_nodes node + stack_nodes st)%nat) by reflexivity.
  rewrite pending_cons, preorder_eq. rewrite count_nodes_eq in Hnode.
  simpl advance_loop.
  destruct (opt_value node) as [v|]; destruct (opt_children node) as [children|];
    simpl app.
  - eexists. split; [reflexivity|]. apply pending_push.
  - eexists. split; [reflexivity|]. reflexivity.
  - rewrite <- pending_push. apply IH. rewrite stack_nodes_push. lia.
  - apply IH. lia.
Qed.

Lemma advance_next (it : @iterator PrefixEltType ValueType) :
  match pending (stack it) with
  | [] => advance it = Some (mkIterator [] (current_pair it))
  | e :: rest =>
      exists it', advance it = Some it' /\
                  deref it' = e /\ pending (stack it') = rest
  end.
Proof.
  unfold advance.
  pose proof (advance_loop_next (S (stack_nodes (stack it))) (stack it)
                (current_pair it) (Nat.lt_succ_diag_r _)) as Hnext.
  destruct (pending (stack it)) as [|e rest]; [exact Hnext|].
  destruct Hnext as (st' & -> & Hrest). eexists. repeat split. exact Hrest.
Qed.

(** X10: [advance()] (and so [++it], and [it++], which also returns the
    cursor as it was) moves the cursor to the next stored pair in depth-first
    pre-order, parents before children and children in vector order, and
    leaves on the stack exactly the pairs after it; when no pair is left it
    empties the stack and keeps the pair it stood on. *)
Theorem advance_moves_to_next_pair (it : @iterator PrefixEltType ValueType) :
  match pending (stack it) with
  | [] =>
      advance it = Some (mkIterator [] (current_pair it)) /\
      post_increment it = Some (it, mkIterator [] (current_pair it))
  | e :: rest =>
      exists it', advance it = Some it' /\
                  post_increment it = Some (it, it') /\
                  deref it' = e /\ pending (stack it') = rest
  end.
Proof.
  pose proof (advance_next it) as Hnext. unfold post_increment.
  destruct (pending (stack it)) as [|e rest].
  - rewrite Hnext. split; reflexivity.
  - destruct Hnext as (it' & Hadv & Hcur & Hrest). exists it'.
    rewrite Hadv. repeat split; assumption.
Qed.

Lemma collect_listing fuel : forall (it : @iterator PrefixEltType ValueType),
  (List.length (pending (stack it)) + 1 < fuel)%nat ->
  exists l, collect fuel it = Some l /\
            (l = current_pair it :: pending (stack it) \/
             l = removelast (current_pair it :: pending (stack it))).
Proof.
  induction fuel as [|fuel IH]; intros it Hlt; [lia|].
  simpl collect. unfold is_end.
  destruct (stack it) as [|top st] eqn:Hst.
  - exists []. split; [reflexivity|]. right. reflexivity.
  - pose proof (advance_next it) as Hnext. rewrite Hst in *.
    destruct (pending (top :: st)) as [|e rest] eqn:Hp.
    + rewrite Hnext. destruct fuel as [|fuel]; [simpl in Hlt; lia|].
      exists [current_pair it]. split; [reflexivity|]. now left.
    + destruct Hnext as (it' & -> & Hcur & Hrest). unfold deref in Hcur.
      destruct (IH it') as (l & -> & Hl); [rewrite Hrest; simpl in Hlt; lia|].
      rewrite Hcur, Hrest in Hl. eexists. split; [reflexivity|].
      destruct Hl as [->| ->]; [now left|right]. reflexivity.
Qed.

Lemma cursor_loop_listing (root : Node) fuel :
  (List.length (preorder [] root) < fuel)%nat ->
  exists it l,
    iterator_from (Some root) = Some it /\
    collect fuel it = Some l /\
    (l = preorder [] root \/ l = removelast (preorder [] root)).
Proof.
  intros Hlt. unfold iterator_from.
  pose proof (advance_next
                (mkIterator [(root, [])] ([], default_value))) as Hnext.
  cbn [stack current_pair] in Hnext. rewrite pending_cons in Hnext.
  simpl pending in Hnext. rewrite app_nil_r in Hnext.
  destruct (preorder [] root) as [|e rest] eqn:Hp.
  - rewrite Hnext. eexists. exists []. split; [reflexivity|].
    destruct fuel as [|fuel]; [simpl in Hlt; lia|]. split; [reflexivity | now left].
  - destruct Hnext as (it & -> & Hcur & Hrest). unfold deref in Hcur.
    destruct (collect_listing fuel it) as (l & Hl & Hcase);
      [rewrite Hrest; simpl in Hlt; lia|].
    rewrite Hcur, Hrest in Hcase. eauto.
Qed.

(** *** The loop against the order of the walk *)

Lemma walk_order_eq (prefix : key_t) node :
  walk_order prefix node =
  (prefix, opt_value node) ::
  match opt_children node with
  | None => []
  | Some children =>
      flat_map (fun c => walk_order (prefix ++ [character c]) c) children
  end.
Proof. now destruct node. Qed.

Lemma walk_order_length : forall node (prefix : key_t),
  List.length (walk_order prefix node) = count_nodes node.
Proof.
  induction node as [ch oc val IH] using TrieNode_induction.
  intros prefix. rewrite walk_order_eq, count_nodes_eq. cbn [opt_children List.length].
  f_equal. destruct oc as [children|]; [|reflexivity].
  induction children as [|c cs IHcs]; [reflexivity|].
  simpl. rewrite length_app. inversion IH; subst. f_equal; auto.
Qed.

Lemma visits_cons node (prefix : key_t) (st : list (Node * key_t)) :
  visits ((node, prefix) :: st) = walk_order prefix node ++ visits st.
Proof. reflexivity. Qed.

Lemma visits_push children (prefix : key_t) (st : list (Node * key_t)) :
  visits (push_children children prefix st) =
  flat_map (fun c => walk_order (prefix ++ [character c]) c) children ++ visits st.
Proof.
  rewrite push_children_eq. unfold visits. rewrite flat_map_app. f_equal.
  induction children as [|c cs IH]; simpl; [reflexivity|]. now rewrite IH.
Qed.

Lemma visits_length (st : list (Node * key_t)) :
  List.length (visits st) = stack_nodes st.
Proof.
  induction st as [|[node prefix] st IH]; [reflexivity|].
  rewrite visits_cons, length_app, walk_order_length, IH. reflexivity.
Qed.

Lemma pairs_of_app (a b : list (key_t * option ValueType)) :
  pairs_of (a ++ b) = pairs_of a ++ pairs_of b.
Proof.
  induction a as [|[k [v|]] a IH]; simpl; [reflexivity| |assumption].
  now rewrite IH.
Qed.

Lemma pairs_of_walk_order : forall node (prefix : key_t),
  pairs_of (walk_order prefix node) = preorder prefix node.
Proof.
  induction node as [ch oc val IH] using TrieNode_induction.
  intros prefix. rewrite walk_order_eq, preorder_eq. cbn [opt_value opt_children].
  assert (Hkids : pairs_of
            match oc with
            | None => []
            | Some children =>
                flat_map (fun c => walk_order (prefix ++ [character c]) c) children
            end =
            match oc with
            | None => []
            | Some children =>
                flat_map (fun c => preorder (prefix ++ [character c]) c) children
            end).
  { destruct oc as [children|]; [|reflexivity].
    induction children as [|c cs IHcs]; [reflexivity|].
    simpl. rewrite pairs_of_app. inversion IH; subst. f_equal; auto. }
  destruct val; simpl; now rewrite Hkids.
Qed.

Lemma next_valued_length (vs : list (key_t * option ValueType)) e rest :
  next_valued vs = Some (e, rest) -> (List.length rest < List.length vs)%nat.
Proof.
  induction vs as [|[k [v|]] vs IH]; simpl; [discriminate| |].
  - intros [= <- <-]. lia.
  - intros Hn. specialize (IH Hn). lia.
Qed.

Lemma pairs_removelast_next (vs : list (key_t * option ValueType)) e rest :
  next_valued vs = Some (e, rest) ->
  pairs_of (removelast vs) =
  match rest with
  | [] => []
  | _ :: _ => e :: pairs_of (removelast rest)
  end.
Proof.
  induction vs as [|[k [v|]] vs IH]; [discriminate| |].
  - intros [= <- <-]. now destruct vs.
  - intros Hn. destruct vs as [|x vs]; [discriminate|].
    change (removelast ((k, None) :: x :: vs)) with ((k, None) :: removelast (x :: vs)).
    simpl pairs_of. now apply IH.
Qed.

Lemma pairs_removelast_none (vs : list (key_t * option ValueType)) :
  next_valued vs = None -> pairs_of (removelast vs) = [].
Proof.
  induction vs as [|[k [v|]] vs IH]; [reflexivity|discriminate|].
  intros Hn. destruct vs as [|x vs]; [reflexivity|].
  change (removelast ((k, None) :: x :: vs)) with ((k, None) :: removelast (x :: vs)).
  simpl pairs_of. now apply IH.
Qed.

Lemma advance_loop_visits fuel : forall (st : list (Node * key_t)) cur,
  (stack_nodes st < fuel)%nat ->
  match next_valued (visits st) with
  | None => advance_loop fuel st cur = Some (mkIterator [] cur)
  | Some (e, rest) =>
      exists st', advance_loop fuel st cur = Some (mkIterator st' e) /\
                  visits st' = rest
  end.
Proof.
  induction fuel as [|fuel IH]; intros st cur Hlt; [lia|].
  destruct st as [|[node prefix] st]; [reflexivity|].
  assert (Hnode : stack_nodes ((node, prefix) :: st) =
                  (count_nodes node + stack_nodes st)%nat) by reflexivity.
  rewrite visits_cons, walk_order_eq. rewrite count_nodes_eq in Hnode.
  simpl advance_loop. cbn [app next_valued].
  destruct (opt_value node) as [v|]; destruct (opt_children node) as [children|].
  - eexists. split; [reflexivity|]. apply visits_push.
  - eexists. split; [reflexivity|]. reflexivity.
  - rewrite <- visits_push. apply IH. rewrite stack_nodes_push. lia.
  - apply IH. lia.
Qed.

Lemma collect_visits fuel : forall (it : @iterator PrefixEltType ValueType),
  (List.length (visits (stack it)) + 1 < fuel)%nat ->
  collect fuel it =
  Some match visits (stack it) with
       | [] => []
       | _ :: _ => current_pair it :: pairs_of (removelast (visits (stack it)))
       end.
Proof.
  induction fuel as [|fuel IH]; intros it Hlt; [lia|].
  simpl collect. unfold is_end, advance.
  destruct (stack it) as [|[node prefix] st] eqn:Hst; [reflexivity|].
  pose proof (advance_loop_visits (S (stack_nodes ((node, prefix) :: st)))
                ((node, prefix) :: st) (current_pair it) (Nat.lt_succ_diag_r _))
    as Hnext.
  assert (Hne : exists x xs, visits ((node, prefix) :: st) = x :: xs).
  { rewrite visits_cons, walk_order_eq. simpl. eauto. }
  destruct Hne as (x & xs & Hvs). rewrite Hvs in *.
  destruct (next_valued (x :: xs)) as [[e rest]|] eqn:Hn.
  - destruct Hnext as (st' & -> & Hrest).
    rewrite (IH (mkIterator st' e)).
    + cbn [stack current_pair option_map]. rewrite Hrest.
      do 2 f_equal. symmetry. now apply pairs_removelast_next.
    + cbn [stack]. rewrite Hrest. pose proof (next_valued_length _ _ _ Hn). lia.
  - rewrite Hnext. destruct fuel as [|fuel]; [simpl in Hlt; lia|].
    cbn [collect is_end stack option_map]. do 2 f_equal. symmetry.
    now apply pairs_removelast_none.
Qed.

(** X11: the client loop [for (it = iterator(root); it != end(); ++it)] ends
    and yields, in the order of the pre-order walk, the pair of every node
    that holds a value except the node the walk visits last: the cursor
    equals [end()] as soon as its stack is empty.  So the last stored pair is
    missing exactly when no node without a value follows it. *)
Theorem cursor_loop_skips_the_last_node (root : Node) fuel :
  (count_nodes root + 1 < fuel)%nat ->
  exists it,
    iterator_from (Some root) = Some it /\
    collect fuel it = Some (pairs_of (removelast (walk_order [] root))) /\
    pairs_of (walk_order [] root) = preorder [] root.
Proof.
  intros Hfuel. unfold iterator_from, advance. cbn [stack current_pair].
  pose proof (advance_loop_visits (S (stack_nodes [(root, [])])) [(root, [])]
                ([], default_value) (Nat.lt_succ_diag_r _)) as Hnext.
  rewrite visits_cons in Hnext. simpl visits in Hnext. rewrite app_nil_r in Hnext.
  destruct (next_valued (walk_order [] root)) as [[e rest]|] eqn:Hn.
  - destruct Hnext as (st' & -> & Hrest). eexists. split; [reflexivity|].
    split; [|apply pairs_of_walk_order].
    rewrite collect_visits.
    + cbn [stack current_pair]. rewrite Hrest. f_equal. symmetry.
      now apply pairs_removelast_next.
    + cbn [stack]. rewrite Hrest. pose proof (next_valued_length _ _ _ Hn) as Hlen.
      rewrite walk_order_length in Hlen. lia.
  - rewrite Hnext. eexists. split; [reflexivity|].
    split; [|apply pairs_of_walk_order].
    destruct fuel as [|fuel]; [lia|]. cbn [collect is_end stack]. f_equal. symmetry.
    now apply pairs_removelast_none.
Qed.

(** *** The listing against lookups *)

Lemma preorder_node_at : forall node (prefix : key_t) k v,
  In (k, v) (preorder prefix node) <->
  exists key m, k = prefix ++ key /\ node_at node key m /\ opt_value m = Some v.
Proof.
  induction node as [ch oc val IH] using TrieNode_induction.
  intros prefix k v. rewrite preorder_eq, in_app_iff. cbn [opt_value opt_children].
  split.
  - intros [Hin|Hin].
    + destruct val as [w|]; [|destruct Hin].
      destruct Hin as [[= <- <-]|[]]. exists [], (mkTrieNode ch oc (Some w)).
      rewrite app_nil_r. repeat split. constructor.
    + destruct oc as [children|]; [|destruct Hin].
      apply in_flat_map in Hin. destruct Hin as (c & Hc & Hin).
      rewrite Forall_forall in IH. apply (IH c Hc) in Hin.
      destruct Hin as (key & m & -> & Hp & Hv).
      exists (character c :: key), m. rewrite <- app_assoc. repeat split; auto.
      now apply node_at_cons with (children := children) (child := c).
  - intros (key & m & -> & Hp & Hv). inversion Hp as [n|n children child c key' m' Hc Hin Hch Hp']; subst.
    + left. simpl in Hv. rewrite Hv. rewrite app_nil_r. now left.
    + right. simpl in Hc. subst oc. apply in_flat_map. exists child. split; [assumption|].
      rewrite Forall_forall in IH. apply (IH child Hin).
      exists key', m. rewrite <- app_assoc. repeat split; auto.
Qed.

Lemma preorder_length : forall node (prefix : key_t),
  List.length (preorder prefix node) = count_values node.
Proof.
  induction node as [ch oc val IH] using TrieNode_induction.
  intros prefix. rewrite preorder_eq, count_values_eq, length_app.
  cbn [opt_value opt_children]. f_equal; [now destruct val|].
  destruct oc as [children|]; [|reflexivity].
  induction children as [|c cs IHcs]; [reflexivity|].
  simpl. rewrite length_app. inversion IH; subst. f_equal; auto.
Qed.

Lemma preorder_key_shape node (prefix : key_t) k :
  In k (map fst (preorder prefix node)) -> exists key, k = prefix ++ key.
Proof.
  intros Hin. apply in_map_iff in Hin. destruct Hin as ([k' v] & <- & Hin).
  apply preorder_node_at in Hin. destruct Hin as (key & m & -> & _). simpl. eauto.
Qed.

Lemma preorder_keys_distinct : forall node (prefix : key_t),
  unique_labels node -> NoDup (map fst (preorder prefix node)).
Proof.
  induction node as [ch oc val IH] using TrieNode_induction.
  intros prefix Hu. rewrite preorder_eq, map_app. cbn [opt_value opt_children].
  apply unique_labels_eq in Hu. cbn [opt_children] in Hu.
  apply NoDup_app.
  - destruct val; simpl; repeat constructor. intros [].
  - destruct oc as [children|]; [|constructor].
    destruct Hu as [Hnd Hall]. rewrite Forall_forall in IH.
    induction children as [|c cs IHcs]; [constructor|].
    simpl. rewrite map_app. inversion Hnd as [|? ? Hfresh Hnd']; subst.
    apply NoDup_app.
    + apply IH; [now left | apply Hall; now left].
    + apply IHcs; auto.
      * intros x Hx. apply IH. now right.
      * intros x Hx. apply Hall. now right.
    + intros k Hk Hk'.
      destruct (preorder_key_shape _ _ _ Hk) as (k1 & ->).
      apply in_map_iff in Hk'. destruct Hk' as ([k2 v2] & Heq & Hin2).
      apply in_flat_map in Hin2. destruct Hin2 as (c' & Hc' & Hin2).
      assert (Hin3 : In k2 (map fst (preorder (prefix ++ [character c']) c')))
        by (apply in_map_iff; exists (k2, v2); auto).
      destruct (preorder_key_shape _ _ _ Hin3) as (k3 & ->).
      simpl in Heq. rewrite <- !app_assoc in Heq. apply app_inv_head in Heq.
      injection Heq as Hlabel _. apply Hfresh. rewrite <- Hlabel. now apply in_map.
  - intros k Hk Hk'.
    assert (k = prefix) as -> by (destruct val; simpl in Hk; intuition).
    destruct oc as [children|]; [|destruct Hk'].
    apply in_map_iff in Hk'. destruct Hk' as ([k2 v2] & Heq & Hin2).
    apply in_flat_map in Hin2. destruct Hin2 as (c' & Hc' & Hin2).
    assert (Hin3 : In k2 (map fst (preorder (prefix ++ [character c']) c')))
      by (apply in_map_iff; exists (k2, v2); auto).
    destruct (preorder_key_shape _ _ _ Hin3) as (k3 & ->).
    simpl in Heq. apply (f_equal (@List.length _)) in Heq.
    rewrite !length_app in Heq. simpl in Heq. lia.
Qed.

Lemma preorder_lists_what_find_yields_aux t :
  reachable t ->
  (forall key v, In (key, v) (preorder [] (m_root t)) <-> find t key = Some v) /\
  List.length (preorder [] (m_root t)) = count_values (m_root t).
Proof.
  intros Hr. pose proof (reachable_unique_labels t Hr) as Hu.
  split; [|apply preorder_length].
  intros key v. rewrite preorder_node_at, find_value_at. unfold value_at. split.
  - intros (key' & m & Hk & Hp & Hv). simpl in Hk. subst key'.
    now rewrite (node_at_find_node_from _ _ _ Hu Hp).
  - destruct (find_node_from (m_root t) key) as [m|] eqn:Hf; [|discriminate].
    intros Hv. exists key, m. repeat split; auto.
    now apply find_node_from_node_at.
Qed.

(** In every reachable state the pre-order listing of the root holds exactly
    the pairs [find] yields, as many as there are stored values, and no key
    twice. *)
Lemma preorder_lists_what_find_yields t :
  reachable t ->
  (forall key v, In (key, v) (preorder [] (m_root t)) <-> find t key = Some v) /\
  List.length (preorder [] (m_root t)) = count_values (m_root t) /\
  NoDup (map fst (preorder [] (m_root t))).
Proof.
  intros Hr. destruct (preorder_lists_what_find_yields_aux t Hr) as [Hmem Hlen].
  split; [exact Hmem|]. split; [exact Hlen|].
  apply preorder_keys_distinct. now apply reachable_unique_labels.
Qed.

Lemma removelast_In {B} (x : B) l : In x (removelast l) -> In x l.
Proof.
  induction l as [|y l IH]; [auto|].
  destruct l as [|z l]; [intros []|].
  intros [->|Hin]; [now left | right; now apply IH].
Qed.

Lemma removelast_map {B C} (f : B -> C) l : map f (removelast l) = removelast (map f l).
Proof.
  induction l as [|y l IH]; [reflexivity|].
  destruct l as [|z l]; [reflexivity|].
  change (f y :: map f (removelast (z :: l)) = f y :: removelast (map f (z :: l))).
  now rewrite IH.
Qed.

Lemma removelast_NoDup {B} (l : list B) : NoDup l -> NoDup (removelast l).
Proof.
  induction 1 as [|y l Hy Hnd IH]; [constructor|].
  destruct l as [|z l]; [constructor|].
  change (removelast (y :: z :: l)) with (y :: removelast (z :: l)).
  constructor; [|exact IH]. intros Hin. apply Hy. now apply removelast_In.
Qed.

Lemma removelast_length {B} (l : list B) :
  List.length (removelast l) = (List.length l - 1)%nat.
Proof.
  induction l as [|y l IH]; [reflexivity|].
  destruct l as [|z l]; [reflexivity|].
  change (S (List.length (removelast (z :: l))) = (S (List.length (z :: l)) - 1)%nat).
  rewrite IH. simpl. lia.
Qed.

(** X12: in every reachable state the loop over a cursor built from the root
    yields only pairs [find] returns, no key twice, and all stored values but
    at most one. *)
Theorem cursor_yields_only_stored_pairs t fuel :
  reachable t ->
  (count_values (m_root t) < fuel)%nat ->
  exists it l,
    iterator_from (Some (m_root t)) = Some it /\
    collect fuel it = Some l /\
    (forall key v, In (key, v) l -> find t key = Some v) /\
    NoDup (map fst l) /\
    (count_values (m_root t) - 1 <= List.length l <= count_values (m_root t))%nat.
Proof.
  intros Hr Hfuel.
  destruct (preorder_lists_what_find_yields t Hr) as (Hmem & Hlen & Hnd).
  rewrite <- Hlen in Hfuel.
  destruct (cursor_loop_listing (m_root t) fuel Hfuel) as (it & l & Hit & Hl & Hcase).
  exists it, l. split; [exact Hit|]. split; [exact Hl|].
  rewrite <- Hlen. destruct Hcase as [->| ->].
  - split; [intros key v; apply Hmem|]. split; [exact Hnd | lia].
  - split; [intros key v Hin; apply Hmem; now apply removelast_In|].
    split; [rewrite removelast_map; now apply removelast_NoDup|].
    rewrite removelast_length. lia.
Qed.

(** X9: in a reachable state whose count agrees with the stored values,
    [empty()] is true exactly when [find] returns nothing for every key. *)
Theorem empty_iff_nothing_found t :
  reachable t ->
  size_consistent t ->
  (empty t = true <-> forall key, find t key = None).
Proof.
  intros Hr [Hcount _].
  destruct (preorder_lists_what_find_yields_aux t Hr) as [Hmem Hlen].
  unfold empty. rewrite Z.eqb_eq, Hcount, <- Hlen. split.
  - intros Hz key. destruct (find t key) as [v|] eqn:Hf; [|reflexivity].
    apply Hmem in Hf. destruct (preorder [] (m_root t)); [destruct Hf | simpl in Hz; lia].
  - intros Hnone. destruct (preorder [] (m_root t)) as [|[k v] rest]; [reflexivity|].
    assert (Hin : In (k, v) ((k, v) :: rest)) by now left.
    apply Hmem in Hin. rewrite Hnone in Hin. discriminate.
Qed.

(** X16: every reachable state keeps the shape the walks rely on: no two
    children of a node share a label, no children vector is present and
    empty, and the count is a [std::size_t] value. *)
Theorem reachable_shape t :
  reachable t ->
  unique_labels (m_root t) /\
  never_empty (m_root t) /\
  0 <= size t <= SIZE_MAX.
Proof.
  intros Hr. split; [now apply reachable_unique_labels|].
  split; [now apply reachable_never_empty | now apply reachable_size_range].
Qed.

End TrieMore.

(** ** Instances on [Trie<char, int>] *)

(** The sample program prints 5; the key it stored under is the literal with
    its NUL, so the same text as a [std::string_view] is a path without a
    value. *)
Example sample_program_prints_5 :
  let t := fst (sample_main empty_trie (literal "applesauce") 5) in
  snd (sample_main empty_trie (literal "applesauce") 5) = 5 /\
  size t = 1 /\
  contains t (sv "applesauce") = true /\
  find t (sv "applesauce") = None.
Proof. vm_compute. repeat split. Qed.

(** A trailing node without a value keeps the stack from emptying on the last
    pair, and the loop then yields every pair. *)
Example cursor_from_root_after_erase :
  option_map (collect 4)
    (iterator_from (Some (m_root (fst (erase abc_trie (sv "b")))))) =
  Some (Some [(sv "a", 1); (sv "ab", 2)]) /\
  preorder [] (m_root (fst (erase abc_trie (sv "b")))) = [(sv "a", 1); (sv "ab", 2)].
Proof. split; reflexivity. Qed.

Lemma abc_trie_size_consistent : size_consistent abc_trie.
Proof. split; [reflexivity | now vm_compute]. Defined.

Lemma insert_leaves_other_keys_witness :
  sv "a" <> sv "ab" /\
  find (fst (insert abc_trie (sv "ab", 7))) (sv "a") = find abc_trie (sv "a") /\
  find (fst (subscript abc_trie (sv "ab"))) (sv "a") = find abc_trie (sv "a").
Proof.
  assert (Hne : sv "a" <> sv "ab") by discriminate.
  split; [exact Hne|].
  exact (insert_leaves_other_keys abc_trie (sv "ab") 7 (sv "a") Hne).
Defined.

Lemma erase_leaves_other_keys_witness :
  reachable abc_trie /\
  sv "ab" <> sv "a" /\
  find (fst (erase abc_trie (sv "a"))) (sv "ab") = find abc_trie (sv "ab").
Proof.
  assert (Hne : sv "ab" <> sv "a") by discriminate.
  split; [exact abc_trie_reachable|]. split; [exact Hne|].
  exact (erase_leaves_other_keys abc_trie (sv "a") (sv "ab") abc_trie_reachable Hne).
Defined.

Lemma size_off_by_at_most_one_witness :
  reachable abc_trie /\
  exists d, (d = 0 \/ d = 1) /\
            size abc_trie = wrap (Z.of_nat (count_values (m_root abc_trie)) - d).
Proof.
  split; [exact abc_trie_reachable|].
  exact (size_off_by_at_most_one abc_trie abc_trie_reachable).
Defined.

Lemma size_consistent_preserved_witness :
  size_consistent abc_trie /\
  m_size abc_trie < SIZE_MAX /\
  (forall kv, size_consistent (fst (insert abc_trie kv))) /\
  (forall key, size_consistent (fst (subscript abc_trie key))) /\
  (forall key, size_consistent (fst (erase abc_trie key))) /\
  (forall key v, size_consistent (write abc_trie key v)) /\
  (opt_value (m_root abc_trie) = None -> size_consistent (clear abc_trie)).
Proof.
  assert (Hroom : m_size abc_trie < SIZE_MAX) by now vm_compute.
  split; [exact abc_trie_size_consistent|]. split; [exact Hroom|].
  exact (size_consistent_preserved abc_trie abc_trie_size_consistent Hroom).
Defined.

Lemma find_node_follows_the_path_witness :
  reachable abc_trie /\
  forall key m, find_node abc_trie key = Some m <-> node_at (m_root abc_trie) key m.
Proof.
  split; [exact abc_trie_reachable|].
  exact (find_node_follows_the_path abc_trie abc_trie_reachable).
Defined.

Lemma paths_are_never_removed_witness :
  reachable abc_trie /\
  contains abc_trie (sv "ab") = true /\
  (forall kv, contains (fst (insert abc_trie kv)) (sv "ab") = true) /\
  (forall k, contains (fst (subscript abc_trie k)) (sv "ab") = true) /\
  (forall k, contains (fst (erase abc_trie k)) (sv "ab") = true) /\
  (forall k v, contains (write abc_trie k v) (sv "ab") = true).
Proof.
  split; [exact abc_trie_reachable|]. split; [reflexivity|].
  exact (paths_are_never_removed abc_trie (sv "ab") abc_trie_reachable eq_refl).
Defined.

Lemma insert_then_erase_is_invisible_witness :
  reachable abc_trie /\
  find abc_trie (sv "abc") = None /\
  let t1 := fst (insert abc_trie (sv "abc", 9)) in
  let t2 := fst (erase t1 (sv "abc")) in
  snd (erase t1 (sv "abc")) = true /\
  (forall key', find t2 key' = find abc_trie key') /\
  size t2 = size abc_trie /\
  count_nodes (m_root t2) =
    (count_nodes (m_root abc_trie) +
     (List.length (sv "abc") - matched_depth (m_root abc_trie) (sv "abc")))%nat.
Proof.
  split; [exact abc_trie_reachable|]. split; [reflexivity|].
  exact (insert_then_erase_is_invisible abc_trie (sv "abc") 9
           abc_trie_reachable eq_refl).
Defined.

Lemma empty_iff_nothing_found_witness :
  reachable abc_trie /\
  size_consistent abc_trie /\
  (empty abc_trie = true <-> forall key, find abc_trie key = None).
Proof.
  split; [exact abc_trie_reachable|]. split; [exact abc_trie_size_consistent|].
  exact (empty_iff_nothing_found abc_trie abc_trie_reachable abc_trie_size_consistent).
Defined.

Lemma cursor_loop_skips_the_last_node_witness :
  (count_nodes (m_root abc_trie) + 1 < 6)%nat /\
  exists it,
    iterator_from (Some (m_root abc_trie)) = Some it /\
    collect 6 it = Some (pairs_of (removelast (walk_order [] (m_root abc_trie)))) /\
    pairs_of (walk_order [] (m_root abc_trie)) = preorder [] (m_root abc_trie).
Proof.
  assert (Hlt : (count_nodes (m_root abc_trie) + 1 < 6)%nat) by (vm_compute; lia).
  split; [exact Hlt|].
  exact (cursor_loop_skips_the_last_node (m_root abc_trie) 6 Hlt).
Defined.

Lemma cursor_yields_only_stored_pairs_witness :
  reachable abc_trie /\
  (count_values (m_root abc_trie) < 4)%nat /\
  exists it l,
    iterator_from (Some (m_root abc_trie)) = Some it /\
    collect 4 it = Some l /\
    (forall key v, In (key, v) l -> find abc_trie key = Some v) /\
    NoDup (map fst l) /\
    (count_values (m_root abc_trie) - 1 <= List.length l
     <= count_values (m_root abc_trie))%nat.
Proof.
  assert (Hlt : (count_values (m_root abc_trie) < 4)%nat) by (vm_compute; lia).
  split; [exact abc_trie_reachable|]. split; [exact Hlt|].
  exact (cursor_yields_only_stored_pairs abc_trie 4 abc_trie_reachable Hlt).
Defined.

Lemma erase_removes_no_node_witness :
  reachable abc_trie /\
  count_nodes (m_root (fst (erase abc_trie (sv "ab")))) = count_nodes (m_root abc_trie) /\
  (snd (erase abc_trie (sv "ab")) = true ->
   exists m, find_node (fst (erase abc_trie (sv "ab"))) (sv "ab") = Some m /\
             opt_value m = None).
Proof.
  split; [exact abc_trie_reachable|].
  exact (erase_removes_no_node abc_trie (sv "ab") abc_trie_reachable).
Defined.

Lemma reachable_shape_witness :
  reachable abc_trie /\
  unique_labels (m_root abc_trie) /\
  never_empty (m_root abc_trie) /\
  0 <= size abc_trie <= SIZE_MAX.
Proof.
  split; [exact abc_trie_reachable|].
  exact (reachable_shape abc_trie abc_trie_reachable).
Defined.
